(** * MTSFV: the checksum core and its Windows Explorer shim

    A shallow embedding of
    - the C ABI of the Rust core ([quicksfv_core.h]): [quicksfv_crc32],
      [quicksfv_crc32_file];
    - the COM shim ([quicksfv_explorer_command.cpp]): the module reference
      count, [QuickerSFVExplorerCommand::Invoke], the class factory,
      [DllGetClassObject] and [DllCanUnloadNow];
    - the provider / registry / engine contract of the specification, for
      the parts that have no counterpart among the sources.

    Integers of the C side are [Z] with their wrap-around written out, wide
    strings are [string], byte buffers are [list byte], the file system is a
    finite map from paths to nodes. *)

From Stdlib Require Import ZArith Lia Bool Ascii String.
From Stdlib.Strings Require Import Byte.
From stdpp Require Import base list strings gmap sorting.

Local Open Scope Z_scope.

(** String concatenation computes on its first argument, as the models of
    the stream and the parsers expect. *)
#[local] Arguments String.append !_ _ / : simpl nomatch.

(** ** Machine integers *)

Module Word.

Definition modulus32 : Z := 2 ^ 32.

(** [LONG] (signed 32 bit): the representative in [-2^31, 2^31). *)
Definition wrap_i32 (z : Z) : Z := (z + 2 ^ 31) mod modulus32 - 2 ^ 31.

(** The values of a [uint32_t]. *)
Definition is_u32 (z : Z) : Prop := 0 <= z < modulus32.

Definition byte_to_Z (b : byte) : Z := Z.of_N (Byte.to_N b).

End Word.

(** ** CRC-32 as computed by the core library *)

Module Crc32.
Import Word.

(** Modelled from the spec: the Rust core ([rust_core/src/lib.rs]) and the
    [crc32fast] hasher it wraps are not among the sources.  The documents
    name the algorithm (CRC32 of [crc32fast], check value [CBF43926] for
    ["123456789"], [00000000] for the empty input); this is the reflected
    CRC-32 with polynomial [EDB88320], initial value and final xor
    [FFFFFFFF], written out bit by bit. *)
Definition POLY : Z := 0xEDB88320.

Definition shift_bit (c : Z) : Z :=
  if Z.testbit c 0 then Z.lxor (Z.shiftr c 1) POLY else Z.shiftr c 1.

Definition feed_byte (c : Z) (b : byte) : Z :=
  Nat.iter 8 shift_bit (Z.lxor c (byte_to_Z b)).

Definition feed (c : Z) (buf : list byte) : Z := fold_left feed_byte buf c.

Definition INIT : Z := 0xFFFFFFFF.
Definition XOROUT : Z := 0xFFFFFFFF.

(** Modelled from the spec: the one-shot CRC32 of a buffer, which the Rust
    core (not among the sources) obtains from [crc32fast]. *)
Definition crc32 (buf : list byte) : Z := Z.lxor (feed INIT buf) XOROUT.

End Crc32.

(** ** Results of fallible calls *)

Inductive result (E A : Type) : Type :=
| Ok (a : A)
| Err (e : E).
Arguments Ok {E A} a.
Arguments Err {E A} e.

#[global] Instance result_ret {E} : MRet (result E) := fun A a => Ok a.

#[global] Instance result_bind {E} : MBind (result E) :=
  fun A B k r =>
    match r with
    | Ok a => k a
    | Err e => Err e
    end.

(** ** The digest provider contract *)

Module Provider.
Import Word Crc32.

Inductive ProviderError := InvalidState.

(** Modelled from the spec: the streaming provider of section 4.1
    ([begin], [update], [finalize]); the repository's hasher lives in the
    Rust core, which is not among the sources.  An algorithm is given by
    its initial register, its update over a chunk and its final
    transformation; an instance of it is either streaming, holding the
    running register, or finalized. *)
Record Algorithm := mkAlgorithm {
  alg_init : Z;
  alg_update : Z -> list byte -> Z;
  alg_final : Z -> Z
}.

Inductive phase :=
| Streaming (reg : Z)
| Finalized.

Record instance := mkInstance {
  algorithm : Algorithm;
  current : phase
}.

(** Modelled from the spec: [begin] of section 4.1; the provider is not
    among the sources. *)
Definition begin (alg : Algorithm) : instance :=
  mkInstance alg (Streaming (alg_init alg)).

(** Modelled from the spec: [update] of section 4.1; the provider is not
    among the sources.  Any chunk is accepted while streaming; after
    [finalize] the call fails with [InvalidState]. *)
Definition update (buf : list byte) (p : instance) : result ProviderError instance :=
  match current p with
  | Streaming r => Ok (mkInstance (algorithm p) (Streaming (alg_update (algorithm p) r buf)))
  | Finalized => Err InvalidState
  end.

(** Modelled from the spec: [finalize] of section 4.1; the provider is not
    among the sources.  It returns the digest and invalidates the instance;
    a second call fails with [InvalidState]. *)
Definition finalize (p : instance) : result ProviderError (Z * instance) :=
  match current p with
  | Streaming r => Ok (alg_final (algorithm p) r, mkInstance (algorithm p) Finalized)
  | Finalized => Err InvalidState
  end.

(** Feed a sequence of chunks one [update] at a time. *)
Fixpoint update_all (chunks : list (list byte)) (p : instance)
  : result ProviderError instance :=
  match chunks with
  | [] => Ok p
  | c :: rest => p' ← update c p; update_all rest p'
  end.

(** [begin], the updates, [finalize]; the digest alone. *)
Definition digest_of_chunks (alg : Algorithm) (chunks : list (list byte))
  : result ProviderError Z :=
  p ← update_all chunks (begin alg);
  r ← finalize p;
  mret (fst r).

(** Modelled from the spec: the built-in CRC32 provider, over the CRC32 of
    the core library; the provider is not among the sources. *)
Definition CRC32 : Algorithm :=
  {| alg_init := INIT; alg_update := feed; alg_final := fun c => Z.lxor c XOROUT |}.

End Provider.

(** ** The C ABI of the core library ([quicksfv_core.h]) *)

Module Core.
Import Word Crc32.

(** A node of the file system as the file API sees it: a path that is
    absent from the map does not exist; a present node either cannot be
    read (permission denied, device error, truncated read) or yields its
    bytes. *)
Inductive FileNode :=
| Unreadable
| Contents (data : list byte).

Abbreviation FileSystem := (gmap string FileNode).

(** Modelled from the spec: the body of [quicksfv_crc32] is in the Rust
    core, which is not among the sources; this follows its header
    contract, "CRC32 checksum, or 0 if ptr is NULL or len is 0".  [ptr] is
    [None] for a NULL pointer, otherwise the buffer it points to, of which
    the first [len] bytes are read. *)
Definition quicksfv_crc32 (ptr : option (list byte)) (len : nat) : Z :=
  match ptr with
  | None => 0
  | Some buf => if (len =? 0)%nat then 0 else crc32 (take len buf)
  end.

(** Modelled from the spec: the body of [quicksfv_crc32_file] is in the
    Rust core, which is not among the sources; this follows its header
    contract, "CRC32 checksum on success, or 0 on error (file not found,
    read error, etc.)".  [path_ptr] is [None] for a NULL pointer. *)
Definition quicksfv_crc32_file (fs : FileSystem) (path_ptr : option string) : Z :=
  match path_ptr with
  | None => 0
  | Some path =>
      match fs !! path with
      | Some (Contents data) => crc32 data
      | Some Unreadable => 0
      | None => 0
      end
  end.

End Core.

(** ** COM vocabulary used by the shim *)

Module Com.
Import Word.

(** [HRESULT] is a signed 32-bit value; the named codes carry the values
    of the Windows SDK ([winerror.h]). *)
Definition HRESULT := Z.

Definition S_OK : HRESULT := 0.
Definition S_FALSE : HRESULT := 1.
Definition E_NOTIMPL : HRESULT := wrap_i32 0x80004001.
Definition E_NOINTERFACE : HRESULT := wrap_i32 0x80004002.
Definition E_POINTER : HRESULT := wrap_i32 0x80004003.
Definition E_FAIL : HRESULT := wrap_i32 0x80004005.
Definition E_OUTOFMEMORY : HRESULT := wrap_i32 0x8007000E.
Definition E_INVALIDARG : HRESULT := wrap_i32 0x80070057.
Definition CLASS_E_NOAGGREGATION : HRESULT := wrap_i32 0x80040110.
Definition CLASS_E_CLASSNOTAVAILABLE : HRESULT := wrap_i32 0x80040111.

Definition SUCCEEDED (hr : HRESULT) : bool := 0 <=? hr.
Definition FAILED (hr : HRESULT) : bool := hr <? 0.

Record GUID := mkGUID {
  Data1 : Z;
  Data2 : Z;
  Data3 : Z;
  Data4 : list Z
}.

#[global] Instance GUID_eq_dec : EqDecision GUID.
Proof. solve_decision. Defined.

(** {A5B8C3D2-1F2E-4D5A-9B3C-7E8F9A1B2C3D} *)
Definition CLSID_QuickerSFVExplorerCommand : GUID :=
  mkGUID 0xa5b8c3d2 0x1f2e 0x4d5a [0x9b; 0x3c; 0x7e; 0x8f; 0x9a; 0x1b; 0x2c; 0x3d].

(** Interface identifiers of the Windows SDK. *)
Definition IID_IUnknown : GUID :=
  mkGUID 0x00000000 0x0000 0x0000 [0xC0; 0x00; 0x00; 0x00; 0x00; 0x00; 0x00; 0x46].
Definition IID_IClassFactory : GUID :=
  mkGUID 0x00000001 0x0000 0x0000 [0xC0; 0x00; 0x00; 0x00; 0x00; 0x00; 0x00; 0x46].
Definition IID_IExplorerCommand : GUID :=
  mkGUID 0xa08ce4d0 0xfa25 0x44ab [0xb5; 0x7c; 0xc7; 0xb1; 0xc3; 0x23; 0xe0; 0xb9].
Definition IID_IObjectWithSite : GUID :=
  mkGUID 0xFC4801A3 0x2BA9 0x11CF [0xA2; 0x29; 0x00; 0xAA; 0x00; 0x3D; 0x73; 0x52].

End Com.

(** ** The wide output stream the results are written to *)

Module Stream.
Import Word.

(** The part of [std::wstringstream] the shim uses: the buffer and the
    formatting state ([std::hex], [std::uppercase] and the fill character
    persist; the field width set by [std::setw] is reset by every
    formatted insertion). *)
Record wstringstream := mkStream {
  buf : string;
  hex : bool;
  uppercase : bool;
  width : nat;
  fill : ascii
}.

Definition fresh_stream : wstringstream :=
  {| buf := ""; hex := false; uppercase := false; width := 0; fill := " "%char |}.

Definition set_hex (os : wstringstream) : wstringstream :=
  {| buf := buf os; hex := true; uppercase := uppercase os;
     width := width os; fill := fill os |}.

Definition set_uppercase (os : wstringstream) : wstringstream :=
  {| buf := buf os; hex := hex os; uppercase := true;
     width := width os; fill := fill os |}.

Definition setw (n : nat) (os : wstringstream) : wstringstream :=
  {| buf := buf os; hex := hex os; uppercase := uppercase os;
     width := n; fill := fill os |}.

Definition setfill (c : ascii) (os : wstringstream) : wstringstream :=
  {| buf := buf os; hex := hex os; uppercase := uppercase os;
     width := width os; fill := c |}.

Fixpoint replicate_char (n : nat) (c : ascii) : string :=
  match n with
  | O => ""
  | S n' => String c (replicate_char n' c)
  end.

(** Right adjustment, the default: fill characters go in front. *)
Definition pad (w : nat) (c : ascii) (s : string) : string :=
  replicate_char (w - String.length s) c +:+ s.

(** Formatted insertion of a string. *)
Definition put_string (s : string) (os : wstringstream) : wstringstream :=
  {| buf := buf os +:+ pad (width os) (fill os) s;
     hex := hex os; uppercase := uppercase os; width := 0; fill := fill os |}.

Definition digit_char (upper : bool) (d : Z) : ascii :=
  if d <? 10 then ascii_of_N (Z.to_N (48 + d))
  else if upper then ascii_of_N (Z.to_N (65 + (d - 10)))
  else ascii_of_N (Z.to_N (97 + (d - 10))).

(** The digits of [v] in [base], most significant first, without leading
    zeros (one digit for zero); [fuel] bounds their number. *)
Fixpoint digits (base : Z) (upper : bool) (fuel : nat) (v : Z) (acc : string)
  : string :=
  match fuel with
  | O => acc
  | S fuel' =>
      let acc' := String (digit_char upper (v mod base)) acc in
      if v / base =? 0 then acc' else digits base upper fuel' (v / base) acc'
  end.

(** The text of a [uint32_t]: at most 8 hexadecimal or 10 decimal digits. *)
Definition show_u32 (os : wstringstream) (v : Z) : string :=
  if hex os then digits 16 (uppercase os) 8 v ""
  else digits 10 (uppercase os) 10 v "".

(** Formatted insertion of a [uint32_t]. *)
Definition put_u32 (v : Z) (os : wstringstream) : wstringstream :=
  put_string (show_u32 os v) os.

Definition str (os : wstringstream) : string := buf os.

End Stream.

(** ** The shell objects handed to the command *)

Module Shell.
Import Com.

(** [IShellItem::GetDisplayName(SIGDN_FILESYSPATH, &filePath)]: the
    returned code and the pointer left in [filePath] ([None] is NULL). *)
Record IShellItem := mkItem {
  GetDisplayName : HRESULT * option string
}.

(** [IShellItemArray]: [GetCount] gives a code and the count it stores;
    [GetItemAt i] either fails with a code or yields an item. *)
Record IShellItemArray := mkArray {
  GetCount : HRESULT * Z;
  GetItemAt : Z -> result HRESULT IShellItem
}.

(** [PathFindFileNameW] of [shlwapi]: the part of the path after the last
    separator (backslash, slash or colon) that is followed by a character
    other than a slash or backslash; the whole path when there is none. *)
Definition is_separator (c : ascii) : bool :=
  (Ascii.eqb c "\" || Ascii.eqb c "/" || Ascii.eqb c ":")%char.

Definition is_slash (c : ascii) : bool :=
  (Ascii.eqb c "\" || Ascii.eqb c "/")%char.

Fixpoint find_file_name (path last : string) : string :=
  match path with
  | EmptyString => last
  | String c rest =>
      match rest with
      | EmptyString => last
      | String c' _ =>
          if is_separator c && negb (is_slash c')
          then find_file_name rest rest
          else find_file_name rest last
      end
  end.

Definition PathFindFileNameW (path : string) : string := find_file_name path path.

End Shell.

(** ** [QuickerSFVExplorerCommand::Invoke] *)

Module ExplorerCommand.
Import Word Com Stream Shell Core.

(** What the command reads from its surroundings: the files on disk and
    the version string of the core library. *)
Record Env := mkEnv {
  files : FileSystem;
  quicksfv_version : string
}.

Definition nl : string := String (ascii_of_N 10) "".

Definition ERROR_TEXT : string := "ERROR (file not found or read error)".

(** The two header insertions before the loop. *)
Definition write_header (env : Env) (results : wstringstream) : wstringstream :=
  let results := put_string ("MTSFV - Hash Computation Results" +:+ nl) results in
  let results := put_string "Using Rust core library v" results in
  let results := put_string (quicksfv_version env) results in
  put_string (nl +:+ nl) results.

(** [results << std::hex << std::uppercase << std::setw(8)
    << std::setfill(L'0') << crc]. *)
Definition insert_crc (crc : Z) (results : wstringstream) : wstringstream :=
  put_u32 crc (setfill "0"%char (setw 8 (set_uppercase (set_hex results)))).

(** The text of a checksum as the command writes it. *)
Definition format_crc (crc : Z) : string := str (insert_crc crc fresh_stream).

(** One iteration of the loop over the selected items. *)
Definition process_item (env : Env) (psiItemArray : IShellItemArray)
    (results : wstringstream) (i : Z) : wstringstream :=
  match GetItemAt psiItemArray i with
  | Err _ => results
  | Ok pItem =>
      let '(hr, filePath) := GetDisplayName pItem in
      match filePath with
      | Some path =>
          if SUCCEEDED hr then
            let crc := quicksfv_crc32_file (files env) (Some path) in
            let results := put_string (PathFindFileNameW path) results in
            let results := put_string ": " results in
            let results :=
              if negb (crc =? 0) then insert_crc crc results
              else put_string ERROR_TEXT results in
            put_string nl results
          else results
      | None => results
      end
  end.

(** The indices [0 .. count-1] the loop runs through. *)
Definition indices (count : Z) : list Z := Z.of_nat <$> seq 0 (Z.to_nat count).

Definition process_items (env : Env) (psiItemArray : IShellItemArray)
    (count : Z) (results : wstringstream) : wstringstream :=
  fold_left (process_item env psiItemArray) (indices count) results.

(** [Invoke]: the returned code and, when the message box is shown, its
    text.  [psiItemArray] is [None] for a NULL pointer. *)
Definition Invoke (env : Env) (psiItemArray : option IShellItemArray)
  : HRESULT * option string :=
  match psiItemArray with
  | None => (E_INVALIDARG, None)
  | Some arr =>
      let '(hr, count) := GetCount arr in
      if FAILED hr || (count =? 0) then (E_INVALIDARG, None)
      else
        let results := write_header env fresh_stream in
        let results := process_items env arr count results in
        (S_OK, Some (str results))
  end.

(** *** What the message box shows, item by item *)

(** The path of item [i] when its retrieval and the resolution of its
    path both succeed. *)
Definition resolved_path (psiItemArray : IShellItemArray) (i : Z) : option string :=
  match GetItemAt psiItemArray i with
  | Err _ => None
  | Ok pItem =>
      match GetDisplayName pItem with
      | (hr, Some path) => if SUCCEEDED hr then Some path else None
      | (_, None) => None
      end
  end.

(** What stands after the file name: the checksum, or the error text. *)
Definition shown_outcome (env : Env) (path : string) : string :=
  let crc := quicksfv_crc32_file (files env) (Some path) in
  if crc =? 0 then ERROR_TEXT else format_crc crc.

Definition result_line (env : Env) (path : string) : string :=
  PathFindFileNameW path +:+ ": " +:+ shown_outcome env path +:+ nl.

(** What one iteration appends to the stream. *)
Definition item_text (env : Env) (psiItemArray : IShellItemArray) (i : Z) : string :=
  match resolved_path psiItemArray i with
  | Some path => result_line env path
  | None => ""
  end.

Definition result_lines (env : Env) (psiItemArray : IShellItemArray) (count : Z)
  : list string :=
  result_line env <$> omap (resolved_path psiItemArray) (indices count).

Definition concat_lines (lines : list string) : string :=
  foldr String.append "" lines.

Definition header_text (env : Env) : string :=
  "MTSFV - Hash Computation Results" +:+ nl
  +:+ "Using Rust core library v" +:+ quicksfv_version env +:+ nl +:+ nl.

(** A selection of files, each of which the shell hands over with its
    file-system path. *)
Definition selection (paths : list string) : IShellItemArray :=
  {| GetCount := (S_OK, Z.of_nat (length paths));
     GetItemAt := fun i =>
       match paths !! Z.to_nat i with
       | Some path => Ok (mkItem (S_OK, Some path))
       | None => Err E_FAIL
       end |}.

(** The command, invoked on the single file [path], shows [text] after
    the file name. *)
Definition shows (env : Env) (path text : string) : Prop :=
  Invoke env (Some (selection [path]))
  = (S_OK, Some (header_text env +:+ PathFindFileNameW path +:+ ": " +:+ text +:+ nl)).

End ExplorerCommand.

(** ** Object lifetimes and the module reference count *)

Module Lifetime.
Import Word Com.

Inductive Class := CommandClass | FactoryClass.

Record Object := mkObject {
  class : Class;
  m_refCount : Z
}.

(** The state of the loaded module: [g_moduleRefCount] and the objects of
    the two classes that are currently alive, by address. *)
Record Runtime := mkRuntime {
  g_moduleRefCount : Z;
  heap : gmap positive Object
}.

Definition loaded : Runtime := {| g_moduleRefCount := 0; heap := ∅ |}.

(** [InterlockedIncrement] and [InterlockedDecrement] on a [LONG]. *)
Definition ModuleAddRef (rt : Runtime) : Runtime :=
  {| g_moduleRefCount := wrap_i32 (g_moduleRefCount rt + 1); heap := heap rt |}.

Definition ModuleRelease (rt : Runtime) : Runtime :=
  {| g_moduleRefCount := wrap_i32 (g_moduleRefCount rt - 1); heap := heap rt |}.

Definition ModuleGetRefCount (rt : Runtime) : Z := g_moduleRefCount rt.

(** Construction at a fresh address: [m_refCount(1)], then [ModuleAddRef]. *)
Definition construct (c : Class) (rt : Runtime) : positive * Runtime :=
  let p := fresh (dom (heap rt)) in
  (p, ModuleAddRef {| g_moduleRefCount := g_moduleRefCount rt;
                      heap := <[p := mkObject c 1]> (heap rt) |}).

(** Destruction: the object goes away, then [ModuleRelease].  The site a
    command may hold is an object of the shell; releasing it does not touch
    the module's state. *)
Definition destroy (p : positive) (rt : Runtime) : Runtime :=
  ModuleRelease {| g_moduleRefCount := g_moduleRefCount rt;
                   heap := delete p (heap rt) |}.

(** [AddRef] and [Release] of both classes.  A call through a pointer to
    no live object is outside the program's defined behaviour; the model
    leaves the state as it is. *)
Definition AddRef (p : positive) (rt : Runtime) : Z * Runtime :=
  match heap rt !! p with
  | Some o =>
      let count := wrap_i32 (m_refCount o + 1) in
      (count, {| g_moduleRefCount := g_moduleRefCount rt;
                 heap := <[p := mkObject (class o) count]> (heap rt) |})
  | None => (0, rt)
  end.

Definition Release (p : positive) (rt : Runtime) : Z * Runtime :=
  match heap rt !! p with
  | Some o =>
      let count := wrap_i32 (m_refCount o - 1) in
      let rt' := {| g_moduleRefCount := g_moduleRefCount rt;
                    heap := <[p := mkObject (class o) count]> (heap rt) |} in
      if count =? 0 then (count, destroy p rt') else (count, rt')
  | None => (0, rt)
  end.

Definition supports (c : Class) (riid : GUID) : bool :=
  match c with
  | CommandClass =>
      bool_decide (riid = IID_IUnknown)
      || bool_decide (riid = IID_IExplorerCommand)
      || bool_decide (riid = IID_IObjectWithSite)
  | FactoryClass =>
      bool_decide (riid = IID_IUnknown) || bool_decide (riid = IID_IClassFactory)
  end.

(** [QueryInterface]: [ppv] tells whether the out pointer is non-NULL;
    the result carries the code and the value stored through it. *)
Definition QueryInterface (p : positive) (riid : GUID) (ppv : bool) (rt : Runtime)
  : HRESULT * option positive * Runtime :=
  if negb ppv then (E_POINTER, None, rt)
  else
    match heap rt !! p with
    | Some o =>
        if supports (class o) riid
        then (S_OK, Some p, snd (AddRef p rt))
        else (E_NOINTERFACE, None, rt)
    | None => (E_NOINTERFACE, None, rt)
    end.

(** [QuickerSFVClassFactory::CreateInstance]; [oom] tells whether
    [new (std::nothrow)] comes back empty-handed, [pUnkOuter] whether the
    outer unknown is non-NULL. *)
Definition CreateInstance (oom : bool) (pUnkOuter : bool) (riid : GUID)
    (ppv : bool) (rt : Runtime) : HRESULT * option positive * Runtime :=
  if negb ppv then (E_POINTER, None, rt)
  else if pUnkOuter then (CLASS_E_NOAGGREGATION, None, rt)
  else if oom then (E_OUTOFMEMORY, None, rt)
  else
    let '(pCommand, rt) := construct CommandClass rt in
    let '(hr, out, rt) := QueryInterface pCommand riid ppv rt in
    let '(_, rt) := Release pCommand rt in
    (hr, out, rt).

(** [QuickerSFVClassFactory::LockServer]. *)
Definition LockServer (fLock : bool) (rt : Runtime) : HRESULT * Runtime :=
  if fLock then (S_OK, ModuleAddRef rt) else (S_OK, ModuleRelease rt).

(** [DllGetClassObject]. *)
Definition DllGetClassObject (oom : bool) (rclsid riid : GUID) (ppv : bool)
    (rt : Runtime) : HRESULT * option positive * Runtime :=
  if negb ppv then (E_POINTER, None, rt)
  else if negb (bool_decide (rclsid = CLSID_QuickerSFVExplorerCommand))
  then (CLASS_E_CLASSNOTAVAILABLE, None, rt)
  else if oom then (E_OUTOFMEMORY, None, rt)
  else
    let '(pFactory, rt) := construct FactoryClass rt in
    let '(hr, out, rt) := QueryInterface pFactory riid ppv rt in
    let '(_, rt) := Release pFactory rt in
    (hr, out, rt).

(** [DllCanUnloadNow]. *)
Definition DllCanUnloadNow (rt : Runtime) : HRESULT :=
  if ModuleGetRefCount rt =? 0 then S_OK else S_FALSE.

(** The calls a client can make on the module and its objects. *)
Inductive Call :=
| CallGetClassObject (oom : bool) (rclsid riid : GUID) (ppv : bool)
| CallCreateInstance (oom : bool) (pUnkOuter : bool) (riid : GUID) (ppv : bool)
| CallQueryInterface (p : positive) (riid : GUID) (ppv : bool)
| CallAddRef (p : positive)
| CallRelease (p : positive)
| CallLockServer (fLock : bool).

Definition perform (c : Call) (rt : Runtime) : Runtime :=
  match c with
  | CallGetClassObject oom rclsid riid ppv => snd (DllGetClassObject oom rclsid riid ppv rt)
  | CallCreateInstance oom outer riid ppv => snd (CreateInstance oom outer riid ppv rt)
  | CallQueryInterface p riid ppv => snd (QueryInterface p riid ppv rt)
  | CallAddRef p => snd (AddRef p rt)
  | CallRelease p => snd (Release p rt)
  | CallLockServer fLock => snd (LockServer fLock rt)
  end.

Definition run (calls : list Call) (rt : Runtime) : Runtime :=
  fold_left (fun rt c => perform c rt) calls rt.

(** Server locks held after a sequence of calls: [LockServer(TRUE)] minus
    [LockServer(FALSE)]. *)
Definition lock_delta (c : Call) : Z :=
  match c with
  | CallLockServer true => 1
  | CallLockServer false => -1
  | _ => 0
  end.

Definition locks_held (calls : list Call) : Z :=
  fold_left (fun n c => n + lock_delta c) calls 0.

(** Every [LockServer(FALSE)] releases a lock that is held: no prefix of
    the sequence has more unlocks than locks. *)
Fixpoint balanced_from (held : Z) (calls : list Call) : bool :=
  match calls with
  | [] => true
  | c :: rest => (0 <=? held + lock_delta c) && balanced_from (held + lock_delta c) rest
  end.

Definition balanced (calls : list Call) : bool := balanced_from 0 calls.

(** Objects of the two classes alive in a state. *)
Definition live_objects (rt : Runtime) : Z := Z.of_nat (size (heap rt)).

(** The invariant of the module count: it is the number of live objects
    plus the locks held, as a [LONG]. *)
Definition tracks (held : Z) (rt : Runtime) : Prop :=
  g_moduleRefCount rt = wrap_i32 (live_objects rt + held).

End Lifetime.

(** ** Digest text *)

Module DigestText.

Definition hex_value (c : ascii) : option Z :=
  let n := Z.of_N (N_of_ascii c) in
  if (48 <=? n) && (n <=? 57) then Some (n - 48)
  else if (65 <=? n) && (n <=? 70) then Some (n - 55)
  else if (97 <=? n) && (n <=? 102) then Some (n - 87)
  else None.

Fixpoint parse_hex (text : string) (acc : Z) : option Z :=
  match text with
  | EmptyString => Some acc
  | String c rest =>
      match hex_value c with
      | Some d => parse_hex rest (16 * acc + d)
      | None => None
      end
  end.

(** Modelled from the spec: the parser of digest text is not among the
    sources.  Sections 4.1, 4.3 and 6: hexadecimal, accepted in either
    case, and of exactly the length of the algorithm's digest, 8
    characters for a 32-bit CRC. *)
Definition parse_crc32 (text : string) : option Z :=
  if (String.length text =? 8)%nat then parse_hex text 0 else None.

(** The [n] low hexadecimal digits of [v], most significant first. *)
Fixpoint fixed_hex (upper : bool) (n : nat) (v : Z) : string :=
  match n with
  | O => ""
  | S n' =>
      String (Stream.digit_char upper (v / 16 ^ Z.of_nat n' mod 16))
             (fixed_hex upper n' v)
  end.

(** The character classes of digest text. *)
Definition is_upper_hex (c : ascii) : bool :=
  let n := Z.of_N (N_of_ascii c) in
  ((48 <=? n) && (n <=? 57)) || ((65 <=? n) && (n <=? 70)).

Definition is_lower_hex (c : ascii) : bool :=
  let n := Z.of_N (N_of_ascii c) in
  ((48 <=? n) && (n <=? 57)) || ((97 <=? n) && (n <=? 102)).

Fixpoint all_chars (P : ascii -> bool) (s : string) : bool :=
  match s with
  | EmptyString => true
  | String c rest => P c && all_chars P rest
  end.

(** The same text with the letters [A]-[Z] turned into [a]-[z]. *)
Definition to_lower_char (c : ascii) : ascii :=
  let n := Z.of_N (N_of_ascii c) in
  if (65 <=? n) && (n <=? 90) then ascii_of_N (Z.to_N (n + 32)) else c.

Fixpoint to_lower (s : string) : string :=
  match s with
  | EmptyString => EmptyString
  | String c rest => String (to_lower_char c) (to_lower rest)
  end.

End DigestText.

(** ** The provider registry *)

Module Registry.
Import Provider.

Inductive RegistryError := UnsupportedAlgorithm.

(** Modelled from the spec: the provider registry of section 4.2 is not
    among the sources.  It maps algorithm identifiers to factories;
    registering an identifier again replaces its factory; [create] on an
    identifier without a factory is the explicit failure. *)
Abbreviation registry := (gmap string Algorithm).

(** Modelled from the spec: [register] of section 4.2, last write wins;
    the registry is not among the sources. *)
Definition register (id : string) (factory : Algorithm) (reg : registry) : registry :=
  <[id := factory]> reg.

(** Modelled from the spec: [create] of section 4.2; the registry is not
    among the sources.  An identifier without a factory gives the failure
    [UnsupportedAlgorithm]. *)
Definition create (id : string) (reg : registry) : result RegistryError instance :=
  match reg !! id with
  | Some factory => Ok (begin factory)
  | None => Err UnsupportedAlgorithm
  end.

(** The built-in providers. *)
Definition builtin : registry := register "crc32" CRC32 ∅.

End Registry.

(** ** Manifests *)

Module Manifest.
Import DigestText.

Record ManifestEntry := mkEntry {
  path : string;
  expected : Z;
  algorithm_id : string
}.

Inductive Line :=
| Ignored
| Entry (e : ManifestEntry)
| Malformed.

Definition is_space (c : ascii) : bool :=
  let n := N_of_ascii c in
  (n =? 32)%N || (n =? 9)%N || (n =? 10)%N || (n =? 13)%N.

Fixpoint drop_spaces (s : list ascii) : list ascii :=
  match s with
  | c :: rest => if is_space c then drop_spaces rest else s
  | [] => []
  end.

(** The leading run of non-space characters and what follows it. *)
Fixpoint split_token (s : list ascii) : list ascii * list ascii :=
  match s with
  | c :: rest =>
      if is_space c then ([], s)
      else let '(tok, tail) := split_token rest in (c :: tok, tail)
  | [] => ([], [])
  end.

(** Modelled from the spec: the parser of the line-oriented manifest
    format (sections 4.3 and 6) is not among the sources.  Trailing
    whitespace is ignored; blank lines and lines that begin with [;] are
    ignored; any other line is a path, whitespace and the digest text of
    the 32-bit CRC, and is malformed when the path is missing or the
    digest text does not parse. *)
Definition parse_line (line : string) : Line :=
  let backwards := drop_spaces (rev (list_ascii_of_string line)) in
  match list_ascii_of_string line, backwards with
  | _, [] => Ignored
  | c :: _, _ =>
      if Ascii.eqb c ";"%char then Ignored
      else
        let '(digest_rev, before) := split_token backwards in
        match drop_spaces before with
        | [] => Malformed
        | path_rev =>
            match parse_crc32 (string_of_list_ascii (rev digest_rev)) with
            | Some d => Entry (mkEntry (string_of_list_ascii (rev path_rev)) d "crc32")
            | None => Malformed
            end
        end
  | [], _ => Ignored
  end.

End Manifest.

(** ** The verification engine *)

Module Engine.
Import Provider Registry Manifest Core.

Inductive Outcome :=
| Matched
| Mismatched
| Missing
| ReadError
| UnsupportedAlgorithmOutcome.

Record VerificationResult := mkResult {
  result_path : string;
  result_algorithm : string;
  outcome : Outcome;
  expected_digest : Z;
  computed_digest : option Z
}.

(** The contents of a file cut into chunks of [S k] bytes, the last one
    possibly shorter; [fuel] bounds the number of chunks. *)
Fixpoint chunks (fuel : nat) (k : nat) (data : list byte) : list (list byte) :=
  match fuel with
  | O => []
  | S fuel' =>
      match data with
      | [] => []
      | _ => take (S k) data :: chunks fuel' k (drop (S k) data)
      end
  end.

Definition chunks_of (k : nat) (data : list byte) : list (list byte) :=
  chunks (length data) k data.

(** Modelled from the spec: steps 3 and 4 of section 4.4 on an opened
    file, stream the chunks through the provider one [update] at a time and
    [finalize]; the engine is not among the sources. *)
Definition stream (p : instance) (k : nat) (data : list byte)
  : result ProviderError Z :=
  p ← update_all (chunks_of k data) p;
  r ← finalize p;
  mret (fst r).

(** Modelled from the spec: the verification engine of section 4.4 is not
    among the sources.  One entry: resolve the algorithm, open the file,
    stream it in chunks of [S k] bytes, compare the digests.  A misuse of
    the provider is fatal to the call. *)
Definition verify_entry (reg : registry) (fs : FileSystem) (k : nat)
    (e : ManifestEntry) : result ProviderError VerificationResult :=
  let report o d := mkResult (path e) (algorithm_id e) o (expected e) d in
  match create (algorithm_id e) reg with
  | Err UnsupportedAlgorithm => Ok (report UnsupportedAlgorithmOutcome None)
  | Ok p =>
      match fs !! path e with
      | None => Ok (report Missing None)
      | Some Unreadable => Ok (report ReadError None)
      | Some (Contents data) =>
          d ← stream p k data;
          Ok (report (if d =? expected e then Matched else Mismatched) (Some d))
      end
  end.

End Engine.

(** ** The worker pool *)

Module Pool.
Import Provider Registry Manifest Core Engine.

Abbreviation verdict := (result ProviderError VerificationResult).

(** Modelled from the spec: the scheduler of section 5 is not among the
    sources.  Entries wait in a shared queue with their manifest
    positions; a worker is idle or holds the entry it pulled; finished
    entries are appended to the collector in completion order. *)
Record pool := mkPool {
  queue : list (nat * ManifestEntry);
  workers : list (option (nat * ManifestEntry));
  collector : list (nat * verdict)
}.

(** The entries with their positions in the manifest, counted from [i]. *)
Fixpoint enumerate_from (i : nat) (manifest : list ManifestEntry)
  : list (nat * ManifestEntry) :=
  match manifest with
  | [] => []
  | e :: rest => (i, e) :: enumerate_from (S i) rest
  end.

Definition start (n : nat) (manifest : list ManifestEntry) : pool :=
  {| queue := enumerate_from 0 manifest;
     workers := replicate n None;
     collector := [] |}.

(** The jobs that are not finished yet: queued, or held by a worker. *)
Definition pending (st : pool) : list (nat * ManifestEntry) :=
  queue st ++ omap id (workers st).

(** Results are ordered by the manifest position of their entries. *)
Definition by_position (a b : nat * verdict) : Prop := (fst a <= fst b)%nat.

#[global] Instance by_position_dec : RelDecision by_position.
Proof. intros a b. unfold by_position. apply _. Defined.

Section Run.
Variable reg : registry.
Variable fs : FileSystem.
Variable k : nat.

Definition finish (job : nat * ManifestEntry) : nat * verdict :=
  (fst job, verify_entry reg fs k (snd job)).

(** Modelled from the spec: one step of worker [w] in the scheduler of
    section 5, which is not among the sources.  An idle worker pulls the
    head of the queue, a busy one completes its entry and records the
    result.  A step of a worker that does not exist, or of an idle worker
    at an empty queue, changes nothing. *)
Definition step (st : pool) (w : nat) : pool :=
  match workers st !! w with
  | None => st
  | Some None =>
      match queue st with
      | [] => st
      | job :: rest =>
          {| queue := rest;
             workers := <[w := Some job]> (workers st);
             collector := collector st |}
      end
  | Some (Some job) =>
      {| queue := queue st;
         workers := <[w := None]> (workers st);
         collector := collector st ++ [finish job] |}
  end.

(** Every job accounted for: the results collected so far and the results
    the unfinished jobs are going to have. *)
Definition accounted (st : pool) : list (nat * verdict) :=
  collector st ++ (finish <$> pending st).

(** A schedule names, step by step, the worker that moves. *)
Definition run (schedule : list nat) (st : pool) : pool :=
  fold_left step schedule st.

Definition idle (slot : option (nat * ManifestEntry)) : bool :=
  match slot with None => true | Some _ => false end.

Definition finished (st : pool) : bool :=
  match queue st with
  | [] => forallb idle (workers st)
  | _ => false
  end.

(** Modelled from the spec: the final report of section 4.4, step 5, the
    collector re-sorted to manifest order; the engine is not among the
    sources. *)
Definition report (st : pool) : list verdict :=
  snd <$> merge_sort by_position (collector st).

(** The report of a run of [n] workers under a schedule. *)
Definition verify_with (n : nat) (schedule : list nat)
    (manifest : list ManifestEntry) : list verdict :=
  report (run schedule (start n manifest)).

(** One worker that alternates pulling and completing. *)
Definition sequential_schedule (manifest : list ManifestEntry) : list nat :=
  replicate (2 * length manifest) 0%nat.

End Run.

End Pool.

(** ** Concrete files, selections and manifests *)

Module Examples.
Import Word Com Shell Core ExplorerCommand.

Definition bytes_of (l : list Z) : list byte :=
  (fun z => default x00 (Byte.of_N (Z.to_N z))) <$> l.

(** Four bytes whose CRC32 is [5F3759DF], and four whose CRC32 is zero. *)
Definition data_5F3759DF : list byte := bytes_of [23; 56; 180; 150].
Definition data_crc_zero : list byte := bytes_of [157; 10; 217; 109].

Definition disk : FileSystem :=
  <["C:\data\check.txt" := Contents (list_byte_of_string "123456789")]>
  (<["C:\data\empty.bin" := Contents []]>
  (<["C:\data\zero.bin" := Contents data_crc_zero]>
  (<["C:\data\locked.bin" := Unreadable]>
  (<["file.bin" := Contents data_5F3759DF]> ∅)))).

Definition env : Env := {| files := disk; quicksfv_version := "0.1.0" |}.

(** Two selected items: the retrieval of the first fails; the second is
    a shell item without a file-system path. *)
Definition unresolved_items : IShellItemArray :=
  {| GetCount := (S_OK, 2);
     GetItemAt := fun i =>
       if i =? 0 then Err E_FAIL
       else Ok (mkItem (E_INVALIDARG, None)) |}.

(** Three selected items, the second of which cannot be retrieved. *)
Definition mixed_items : IShellItemArray :=
  {| GetCount := (S_OK, 3);
     GetItemAt := fun i =>
       if i =? 0 then Ok (mkItem (S_OK, Some "C:\data\check.txt"))
       else if i =? 1 then Err E_FAIL
       else Ok (mkItem (S_OK, Some "C:\data\locked.bin")) |}.

(** The same selected file on a disk where it does not exist and on a
    disk where it exists but cannot be read. *)
Definition env_missing : Env :=
  {| files := delete "C:\data\locked.bin" disk; quicksfv_version := "0.1.0" |}.

(** A manifest of three entries: a file that matches, a path that does not
    exist and a file that cannot be read. *)
Definition manifest : list Manifest.ManifestEntry :=
  [ Manifest.mkEntry "file.bin" 0x5F3759DF "crc32";
    Manifest.mkEntry "absent.bin" 1 "crc32";
    Manifest.mkEntry "C:\data\locked.bin" 2 "crc32" ].

(** A schedule for three workers that interleaves their steps. *)
Definition interleaved : list nat := [2; 1; 0; 1; 0; 2]%nat.

(** [LockServer(TRUE)], 2^31 times in a row. *)
Definition many_locks : list Lifetime.Call :=
  replicate (Z.to_nat (2 ^ 31)) (Lifetime.CallLockServer true).

(** [LockServer(TRUE)], 2^32 times in a row. *)
Definition very_many_locks : list Lifetime.Call :=
  replicate (Z.to_nat (2 ^ 32)) (Lifetime.CallLockServer true).

(** A client obtains the class factory, locks the server, creates a
    command, lets go of the factory and unlocks the server. *)
Definition session : list Lifetime.Call :=
  [ Lifetime.CallGetClassObject false CLSID_QuickerSFVExplorerCommand IID_IClassFactory true;
    Lifetime.CallLockServer true;
    Lifetime.CallCreateInstance false false IID_IExplorerCommand true;
    Lifetime.CallRelease 1%positive;
    Lifetime.CallLockServer false ].

End Examples.

(** ** The site of a command: [SetSite], [GetSite] and the destructor *)

Module Site.
Import Com.

(** The calls the command makes on the site objects the shell hands it.
    A site is an object of the shell, known here by its address. *)
Inductive SiteCall :=
| SiteAddRef (s : positive)
| SiteRelease (s : positive)
| SiteQueryInterface (s : positive) (riid : GUID).

(** The field [m_site] ([None] is [nullptr]) and the calls made so far. *)
Record CommandSite := mkSite {
  m_site : option positive;
  site_calls : list SiteCall
}.

(** After the constructor: [m_site(nullptr)]. *)
Definition constructed : CommandSite := {| m_site := None; site_calls := [] |}.

(** [SetSite]: release the site held, then take and [AddRef] the new one. *)
Definition SetSite (pUnkSite : option positive) (st : CommandSite)
  : HRESULT * CommandSite :=
  let st :=
    match m_site st with
    | Some s => {| m_site := None; site_calls := site_calls st ++ [SiteRelease s] |}
    | None => st
    end in
  let st :=
    match pUnkSite with
    | Some s => {| m_site := Some s; site_calls := site_calls st ++ [SiteAddRef s] |}
    | None => st
    end in
  (S_OK, st).

(** [GetSite]: [ppv] tells whether the out pointer is non-NULL; [site_qi]
    is the answer of the site's own [QueryInterface].  The second
    component is what is stored through [ppv]: [None] when nothing is
    stored, [Some out] when the site stored [out]. *)
Definition GetSite (site_qi : positive -> GUID -> HRESULT * option positive)
    (riid : GUID) (ppv : bool) (st : CommandSite)
  : HRESULT * option (option positive) * CommandSite :=
  if negb ppv then (E_POINTER, None, st)
  else
    match m_site st with
    | None => (E_FAIL, None, st)
    | Some s =>
        let '(hr, out) := site_qi s riid in
        (hr, Some out,
         {| m_site := m_site st;
            site_calls := site_calls st ++ [SiteQueryInterface s riid] |})
    end.

(** The site part of the destructor: [if (m_site) m_site->Release()]. *)
Definition destructor (st : CommandSite) : list SiteCall :=
  match m_site st with
  | Some s => site_calls st ++ [SiteRelease s]
  | None => site_calls st
  end.

(** What the shell does with the site of a command. *)
Inductive SiteOp :=
| OpSetSite (pUnkSite : option positive)
| OpGetSite (riid : GUID) (ppv : bool).

Definition perform_site (site_qi : positive -> GUID -> HRESULT * option positive)
    (st : CommandSite) (op : SiteOp) : CommandSite :=
  match op with
  | OpSetSite p => snd (SetSite p st)
  | OpGetSite riid ppv => snd (GetSite site_qi riid ppv st)
  end.

Definition run_site (site_qi : positive -> GUID -> HRESULT * option positive)
    (ops : list SiteOp) (st : CommandSite) : CommandSite :=
  fold_left (perform_site site_qi) ops st.

(** References the command holds on site [s] according to a log of calls:
    its [AddRef]s minus its [Release]s. *)
Definition ref_delta (s : positive) (c : SiteCall) : Z :=
  match c with
  | SiteAddRef s' => if decide (s' = s) then 1 else 0
  | SiteRelease s' => if decide (s' = s) then -1 else 0
  | SiteQueryInterface _ _ => 0
  end.

Definition refs_held (s : positive) (log : list SiteCall) : Z :=
  foldr (fun c n => ref_delta s c + n) 0 log.

(** The command holds one reference on the site it has and none on any
    other, and at no point of the log has it released more than it took. *)
Definition holds_its_site (st : CommandSite) : Prop :=
  forall s : positive,
    refs_held s (site_calls st) = (if decide (m_site st = Some s) then 1 else 0)
    /\ (forall l1 l2, site_calls st = l1 ++ l2 -> 0 <= refs_held s l1).

End Site.

(** ** The descriptive methods of the command *)

Module CommandInfo.
Import Com Shell.

(** Values of the Windows SDK ([shobjidl_core.h]). *)
Definition ECS_ENABLED : Z := 0.
Definition ECF_DEFAULT : Z := 0.

(** What a method leaves behind its out pointer. *)
Inductive Stored :=
| NotStored
| StoredNull
| StoredText (text : string)
| StoredGuid (g : GUID)
| StoredValue (v : Z).

Definition wcslen (s : string) : nat := String.length s.

(** [wcscpy_s (dest, destsz, src)]: the copy, or [None] when the source
    with its terminator does not fit and the invalid-parameter handler
    ends the process. *)
Definition wcscpy_s (destsz : nat) (src : string) : option string :=
  if (wcslen src <? destsz)%nat then Some src else None.

(** The body shared by [GetTitle] and [GetToolTip]: allocate
    [wcslen + 1] characters with [CoTaskMemAlloc] ([oom] tells whether it
    comes back with NULL) and copy the text.  [None] is the end of the
    process in [wcscpy_s]. *)
Definition hand_over_text (text : string) (out : bool) (oom : bool)
  : option (HRESULT * Stored) :=
  if negb out then Some (E_POINTER, NotStored)
  else
    let len := (wcslen text + 1)%nat in
    if oom then Some (E_OUTOFMEMORY, StoredNull)
    else
      match wcscpy_s len text with
      | Some copy => Some (S_OK, StoredText copy)
      | None => None
      end.

Definition GetTitle (psiItemArray : option IShellItemArray) (ppszName : bool)
    (oom : bool) : option (HRESULT * Stored) :=
  hand_over_text "Compute Hash (MTSFV)" ppszName oom.

Definition GetToolTip (psiItemArray : option IShellItemArray) (ppszInfotip : bool)
    (oom : bool) : option (HRESULT * Stored) :=
  hand_over_text "Compute checksums using MTSFV" ppszInfotip oom.

Definition GetIcon (psiItemArray : option IShellItemArray) (ppszIcon : bool)
  : HRESULT * Stored :=
  if negb ppszIcon then (E_POINTER, NotStored) else (E_NOTIMPL, StoredNull).

Definition GetCanonicalName (pguidCommandName : bool) : HRESULT * Stored :=
  if negb pguidCommandName then (E_POINTER, NotStored)
  else (S_OK, StoredGuid CLSID_QuickerSFVExplorerCommand).

Definition GetState (psiItemArray : option IShellItemArray) (fOkToBeSlow : bool)
    (pCmdState : bool) : HRESULT * Stored :=
  if negb pCmdState then (E_POINTER, NotStored) else (S_OK, StoredValue ECS_ENABLED).

Definition GetFlags (pFlags : bool) : HRESULT * Stored :=
  if negb pFlags then (E_POINTER, NotStored) else (S_OK, StoredValue ECF_DEFAULT).

Definition EnumSubCommands (ppEnum : bool) : HRESULT * Stored :=
  if negb ppEnum then (E_POINTER, NotStored) else (E_NOTIMPL, StoredNull).

(** The seven methods, called with an out pointer that is NULL or not. *)
Inductive Method :=
| MGetTitle
| MGetIcon
| MGetToolTip
| MGetCanonicalName
| MGetState (fOkToBeSlow : bool)
| MGetFlags
| MEnumSubCommands.

Definition call (m : Method) (psiItemArray : option IShellItemArray)
    (out : bool) (oom : bool) : option (HRESULT * Stored) :=
  match m with
  | MGetTitle => GetTitle psiItemArray out oom
  | MGetIcon => Some (GetIcon psiItemArray out)
  | MGetToolTip => GetToolTip psiItemArray out oom
  | MGetCanonicalName => Some (GetCanonicalName out)
  | MGetState slow => Some (GetState psiItemArray slow out)
  | MGetFlags => Some (GetFlags out)
  | MEnumSubCommands => Some (EnumSubCommands out)
  end.

End CommandInfo.

(** ** The usage example: [string_to_utf16] *)

Module Usage.
Import Word.

(** [static_cast<uint16_t>(c)] for a [char] [c]: where [char] is signed a
    byte of 128 or more is a negative value and wraps to the top of the
    16-bit range; where it is unsigned the value is the byte. *)
Definition char_to_uint16 (char_signed : bool) (c : byte) : Z :=
  let v := byte_to_Z c in
  if char_signed && (128 <=? v) then (v - 256) mod 2 ^ 16 else v.

(** [string_to_utf16]: one [push_back] per character, then the
    terminator. *)
Definition string_to_utf16 (char_signed : bool) (str : list byte) : list Z :=
  let result := fold_left (fun result c => result ++ [char_to_uint16 char_signed c]) str [] in
  result ++ [0].

(** The null-terminated string at the start of a buffer. *)
Fixpoint c_str {A} (is_zero : A -> bool) (buffer : list A) : list A :=
  match buffer with
  | [] => []
  | x :: rest => if is_zero x then [] else x :: c_str is_zero rest
  end.

Definition is_nul (c : byte) : bool := byte_to_Z c =? 0.

End Usage.

(** ** Reference counting along sequences of calls *)

Module RefTrace.
Import Word Com Lifetime.

(** [true] is an [AddRef], [false] a [Release], both on the same object. *)
Definition ref_call (p : positive) (add : bool) : Call :=
  if add then CallAddRef p else CallRelease p.

Definition ref_step (add : bool) : Z := if add then 1 else -1.

Definition net_refs (ops : list bool) : Z :=
  fold_left (fun n add => n + ref_step add) ops 0.

(** Starting from the count [m], every call of the sequence leaves a count
    between 1 and 2^31 - 1. *)
Fixpoint stays_referenced (m : Z) (ops : list bool) : bool :=
  match ops with
  | [] => true
  | add :: rest =>
      (1 <=? m + ref_step add) && (m + ref_step add <? 2 ^ 31)
      && stays_referenced (m + ref_step add) rest
  end.

(** The object a call is made on, if any. *)
Definition target (c : Call) : option positive :=
  match c with
  | CallQueryInterface p _ _ => Some p
  | CallAddRef p => Some p
  | CallRelease p => Some p
  | _ => None
  end.

Definition is_lock_call (c : Call) : bool :=
  match c with
  | CallLockServer _ => true
  | _ => false
  end.

(** A [LONG]. *)
Definition is_long (z : Z) : Prop := - 2 ^ 31 <= z < 2 ^ 31.

End RefTrace.

(** ** More concrete inputs *)

Module MoreExamples.
Import Com Lifetime.

(** A module with one factory alive, held by two references. *)
Definition one_factory : Runtime :=
  {| g_moduleRefCount := 1; heap := {[ 1%positive := mkObject FactoryClass 2 ]} |}.

(** A module with a factory and a command alive. *)
Definition two_objects : Runtime :=
  {| g_moduleRefCount := 2;
     heap := <[ 2%positive := mkObject CommandClass 1 ]>
             {[ 1%positive := mkObject FactoryClass 1 ]} |}.

(** A site that answers every query with [E_NOINTERFACE]. *)
Definition deaf_site (s : positive) (riid : GUID) : HRESULT * option positive :=
  (E_NOINTERFACE, None).

(** The bytes of ["a.txt"] and of a name with a Latin-1 e-acute. *)
Definition ascii_name : list byte := list_byte_of_string "a.txt".
Definition latin1_name : list byte := [x63; x61; x66; xe9].

End MoreExamples.

(** * Properties *)

(** ** Arithmetic of the CRC register *)

Section CrcFacts.
Import Word Crc32.

Lemma u32_testbit_high (z : Z) (i : Z) :
  is_u32 z -> 32 <= i -> Z.testbit z i = false.
Proof.
  intros [Hlo Hhi] Hi.
  destruct (Z.eq_dec z 0) as [-> | Hnz]; [apply Z.bits_0 |].
  apply Z.bits_above_log2; [lia |].
  assert (Z.log2 z < 32); [| lia].
  apply Z.log2_lt_pow2; [lia | exact Hhi].
Qed.

Lemma is_u32_of_bits (z : Z) :
  0 <= z -> (forall i, 32 <= i -> Z.testbit z i = false) -> is_u32 z.
Proof.
  intros Hlo Hbits. split; [exact Hlo |].
  destruct (Z.eq_dec z 0) as [-> | Hnz]; [reflexivity |].
  unfold modulus32. apply Z.log2_lt_pow2; [lia |].
  destruct (Z_lt_ge_dec (Z.log2 z) 32) as [Hlt | Hge]; [exact Hlt |].
  exfalso. pose proof (Z.bit_log2 z ltac:(lia)) as Hb.
  rewrite Hbits in Hb by lia. discriminate.
Qed.

Lemma lxor_u32 (a b : Z) : is_u32 a -> is_u32 b -> is_u32 (Z.lxor a b).
Proof.
  intros Ha Hb. apply is_u32_of_bits.
  - apply Z.lxor_nonneg. destruct Ha, Hb. lia.
  - intros i Hi. rewrite Z.lxor_spec.
    rewrite (u32_testbit_high a), (u32_testbit_high b); auto.
Qed.

Lemma shiftr1_u32 (c : Z) : is_u32 c -> is_u32 (Z.shiftr c 1).
Proof.
  intros [Hlo Hhi]. unfold is_u32, modulus32 in *.
  rewrite Z.shiftr_div_pow2 by lia. change (2 ^ 1) with 2.
  split; [apply Z.div_pos; lia |].
  apply Z.div_lt_upper_bound; lia.
Qed.

Lemma POLY_u32 : is_u32 POLY.
Proof. unfold is_u32, POLY, modulus32. lia. Qed.

Create HintDb word32.
#[local] Hint Resolve lxor_u32 shiftr1_u32 POLY_u32 : word32.

Lemma shift_bit_u32 (c : Z) : is_u32 c -> is_u32 (shift_bit c).
Proof.
  intros Hc. unfold shift_bit.
  destruct (Z.testbit c 0); auto with word32.
Qed.

Lemma byte_to_Z_range (b : byte) : 0 <= byte_to_Z b < 256.
Proof.
  unfold byte_to_Z. pose proof (Byte.to_N_bounded b). lia.
Qed.

Lemma byte_to_Z_u32 (b : byte) : is_u32 (byte_to_Z b).
Proof.
  pose proof (byte_to_Z_range b). unfold is_u32, modulus32. lia.
Qed.

#[local] Hint Resolve shift_bit_u32 byte_to_Z_u32 : word32.

Lemma feed_byte_u32 (c : Z) (b : byte) : is_u32 c -> is_u32 (feed_byte c b).
Proof.
  intros Hc. unfold feed_byte.
  assert (Hx : is_u32 (Z.lxor c (byte_to_Z b))) by auto with word32.
  revert Hx. generalize (Z.lxor c (byte_to_Z b)). intros x Hx.
  cbn [Nat.iter]. repeat apply shift_bit_u32. exact Hx.
Qed.

Lemma feed_u32 (buf : list byte) (c : Z) : is_u32 c -> is_u32 (feed c buf).
Proof.
  revert c. induction buf as [| b buf IH]; intros c Hc; cbn; [exact Hc |].
  apply IH, feed_byte_u32, Hc.
Qed.

Lemma INIT_u32 : is_u32 INIT.
Proof. unfold is_u32, INIT, modulus32. lia. Qed.

Lemma crc32_u32 (buf : list byte) : is_u32 (crc32 buf).
Proof.
  unfold crc32. apply lxor_u32; [apply feed_u32, INIT_u32 | apply INIT_u32].
Qed.

Lemma feed_app (a b : list byte) (c : Z) :
  feed c (a ++ b) = feed (feed c a) b.
Proof. unfold feed. apply fold_left_app. Qed.

Lemma crc32_nil : crc32 [] = 0.
Proof. reflexivity. Qed.

End CrcFacts.

(** ** The CRC32 provider and the buffer API *)

Section ProviderFacts.
Import Word Crc32 Provider Core.

Lemma update_all_crc32 (chunks : list (list byte)) (r : Z) :
  update_all chunks (mkInstance CRC32 (Streaming r))
  = Ok (mkInstance CRC32 (Streaming (feed r (concat chunks)))).
Proof.
  revert r. induction chunks as [| c chunks IH]; intros r; [reflexivity |].
  cbn [update_all update current algorithm mbind result_bind].
  rewrite IH. cbn [concat alg_update CRC32]. now rewrite feed_app.
Qed.

Lemma digest_of_chunks_crc32 (chunks : list (list byte)) :
  digest_of_chunks CRC32 chunks = Ok (crc32 (concat chunks)).
Proof.
  unfold digest_of_chunks, begin. cbn [alg_init CRC32].
  rewrite update_all_crc32. reflexivity.
Qed.

Lemma quicksfv_crc32_whole (buf : list byte) :
  quicksfv_crc32 (Some buf) (length buf) = crc32 buf.
Proof.
  unfold quicksfv_crc32. rewrite firstn_all.
  destruct buf as [| b buf]; reflexivity.
Qed.

(** The test vectors of the core library's documentation and of
    [example_cpp_usage.cpp]. *)
Example crc32_check_value :
  quicksfv_crc32 (Some (list_byte_of_string "123456789")) 9 = 0xCBF43926.
Proof. vm_compute. reflexivity. Qed.

Example crc32_hello_world :
  quicksfv_crc32 (Some (list_byte_of_string "Hello, World!")) 13 = 0xEC4AC3D0.
Proof. vm_compute. reflexivity. Qed.

Example crc32_empty_string : crc32 (list_byte_of_string "") = 0.
Proof. reflexivity. Qed.

(** C3. Chunk-boundary independence of the CRC32 provider: feeding [a]
    and then [b] gives the digest of feeding [a ++ b] at once, this is the
    checksum [quicksfv_crc32] computes for the whole buffer, and an
    update with no bytes leaves a streaming provider as it is. *)
Theorem chunk_boundary_independence (a b : list byte) :
  digest_of_chunks CRC32 [a; b] = digest_of_chunks CRC32 [a ++ b]
  /\ digest_of_chunks CRC32 [a; b]
     = Ok (quicksfv_crc32 (Some (a ++ b)) (length (a ++ b)))
  /\ (forall r : Z,
        update [] (mkInstance CRC32 (Streaming r))
        = Ok (mkInstance CRC32 (Streaming r)))
  /\ (forall r : Z,
        (p ← update [] (mkInstance CRC32 (Streaming r)); update a p)
        = update a (mkInstance CRC32 (Streaming r))).
Proof.
  repeat split.
  - rewrite !digest_of_chunks_crc32. cbn [concat]. now rewrite !app_nil_r.
  - rewrite digest_of_chunks_crc32, quicksfv_crc32_whole.
    cbn [concat]. now rewrite app_nil_r.
Qed.

End ProviderFacts.

(** ** Strings and the output stream *)

Section StringFacts.
Import Stream.

Lemma str_app_nil_r (s : string) : s +:+ "" = s.
Proof. induction s as [| c s IH]; simpl; [reflexivity | f_equal; exact IH]. Qed.

Lemma str_app_assoc (s t u : string) : (s +:+ t) +:+ u = s +:+ (t +:+ u).
Proof. induction s as [| c s IH]; simpl; [reflexivity | f_equal; exact IH]. Qed.

Lemma str_length_app (s t : string) :
  String.length (s +:+ t) = (String.length s + String.length t)%nat.
Proof. induction s as [| c s IH]; simpl; [reflexivity | f_equal; exact IH]. Qed.

Lemma length_replicate_char (n : nat) (c : ascii) :
  String.length (replicate_char n c) = n.
Proof. induction n as [| n IH]; simpl; [reflexivity | f_equal; exact IH]. Qed.

Lemma pad_width_zero (c : ascii) (s : string) : pad 0 c s = s.
Proof. reflexivity. Qed.

(** With no field width pending, inserting a string appends it and
    leaves the formatting state alone. *)
Lemma put_string_buf (s : string) (os : wstringstream) :
  width os = 0%nat -> buf (put_string s os) = buf os +:+ s.
Proof. intros Hw. cbn. now rewrite Hw. Qed.

Lemma put_string_width (s : string) (os : wstringstream) :
  width (put_string s os) = 0%nat.
Proof. reflexivity. Qed.

End StringFacts.

(** ** The text of a checksum *)

Section DigestTextFacts.
Import Word Stream DigestText ExplorerCommand.

Ltac nibble_cases d :=
  assert (d = 0 \/ d = 1 \/ d = 2 \/ d = 3 \/ d = 4 \/ d = 5 \/ d = 6 \/ d = 7
          \/ d = 8 \/ d = 9 \/ d = 10 \/ d = 11 \/ d = 12 \/ d = 13 \/ d = 14
          \/ d = 15) as Hcases by lia;
  repeat (destruct Hcases as [-> | Hcases]); try subst d.

Lemma hex_value_digit_char (upper : bool) (d : Z) :
  0 <= d < 16 -> hex_value (digit_char upper d) = Some d.
Proof. intros Hd. nibble_cases d; destruct upper; reflexivity. Qed.

Lemma upper_digit_char (d : Z) :
  0 <= d < 16 -> is_upper_hex (digit_char true d) = true.
Proof. intros Hd. nibble_cases d; reflexivity. Qed.

Lemma lower_digit_char (d : Z) :
  0 <= d < 16 -> to_lower_char (digit_char true d) = digit_char false d.
Proof. intros Hd. nibble_cases d; reflexivity. Qed.

Lemma nibble_range (x : Z) : 0 <= x mod 16 < 16.
Proof. apply Z.mod_pos_bound. lia. Qed.

Lemma pow16_pos (n : nat) : 0 < 16 ^ Z.of_nat n.
Proof. apply Z.pow_pos_nonneg; lia. Qed.

Lemma pow16_succ (n : nat) : 16 ^ Z.of_nat (S n) = 16 * 16 ^ Z.of_nat n.
Proof. rewrite Nat2Z.inj_succ, Z.pow_succ_r by lia. reflexivity. Qed.

Lemma fixed_hex_length (upper : bool) (n : nat) (v : Z) :
  String.length (fixed_hex upper n v) = n.
Proof. induction n as [| n IH]; simpl; [reflexivity | f_equal; exact IH]. Qed.

Lemma fixed_hex_zero (upper : bool) (n : nat) :
  fixed_hex upper n 0 = replicate_char n "0"%char.
Proof.
  induction n as [| n IH]; [reflexivity |].
  cbn [fixed_hex replicate_char]. rewrite IH, Z.div_0_l; [reflexivity |].
  pose proof (pow16_pos n). lia.
Qed.

Lemma fixed_hex_snoc (upper : bool) (n : nat) (v : Z) :
  fixed_hex upper (S n) v
  = fixed_hex upper n (v / 16) +:+ String (digit_char upper (v mod 16)) "".
Proof.
  induction n as [| n IH].
  - cbn [fixed_hex]. change (16 ^ Z.of_nat 0) with 1. now rewrite Z.div_1_r.
  - change (fixed_hex upper (S (S n)) v)
      with (String (digit_char upper (v / 16 ^ Z.of_nat (S n) mod 16))
                   (fixed_hex upper (S n) v)).
    rewrite IH. cbn [fixed_hex String.append].
    rewrite pow16_succ, Z.div_div by (pose proof (pow16_pos n); lia).
    reflexivity.
Qed.

(** The digits the stream writes, padded to the field width, are the
    fixed-width digits. *)
Lemma digits_fixed (upper : bool) (fuel : nat) :
  forall (v : Z) (acc : string),
    0 <= v < 16 ^ Z.of_nat fuel -> (1 <= fuel)%nat ->
    pad (fuel + String.length acc) "0"%char (digits 16 upper fuel v acc)
    = fixed_hex upper fuel v +:+ acc.
Proof.
  induction fuel as [| f IH]; intros v acc Hv Hf; [lia |].
  cbn [digits]. rewrite fixed_hex_snoc, str_app_assoc. cbn [String.append].
  rewrite pow16_succ in Hv.
  destruct (Z.eqb_spec (v / 16) 0) as [Hz | Hnz].
  - rewrite Hz, fixed_hex_zero. unfold pad. cbn [String.length].
    replace (S f + String.length acc - S (String.length acc))%nat with f by lia.
    reflexivity.
  - assert (Hq : 0 <= v / 16 < 16 ^ Z.of_nat f).
    { split; [apply Z.div_pos; lia |].
      apply Z.div_lt_upper_bound; lia. }
    assert (Hf' : (1 <= f)%nat).
    { destruct f as [| f']; [| lia]. cbn in Hq. lia. }
    specialize (IH (v / 16) (String (digit_char upper (v mod 16)) acc) Hq Hf').
    cbn [String.length] in IH.
    replace (S f + String.length acc)%nat with (f + S (String.length acc))%nat by lia.
    exact IH.
Qed.

(** The text of a 32-bit checksum is its eight digits in upper case. *)
Lemma format_crc_fixed (v : Z) : is_u32 v -> format_crc v = fixed_hex true 8 v.
Proof.
  intros Hv. unfold format_crc, insert_crc, str, put_u32, show_u32.
  cbn [put_string buf hex uppercase width fill set_hex set_uppercase setw
       setfill fresh_stream String.append].
  pose proof (digits_fixed true 8 v "" Hv ltac:(lia)) as H.
  cbn [String.length Nat.add] in H. rewrite H. apply str_app_nil_r.
Qed.

Lemma parse_hex_fixed (upper : bool) (n : nat) :
  forall (v acc : Z),
    parse_hex (fixed_hex upper n v) acc
    = Some (acc * 16 ^ Z.of_nat n + v mod 16 ^ Z.of_nat n).
Proof.
  induction n as [| n IH]; intros v acc.
  - cbn. rewrite Z.mod_1_r. f_equal. lia.
  - cbn [fixed_hex parse_hex].
    rewrite hex_value_digit_char by apply nibble_range.
    rewrite IH. f_equal. rewrite pow16_succ.
    pose proof (pow16_pos n).
    rewrite (Z.mul_comm 16 (16 ^ Z.of_nat n)).
    rewrite (Z.rem_mul_r v (16 ^ Z.of_nat n) 16) by lia.
    ring.
Qed.

Lemma to_lower_fixed (n : nat) (v : Z) :
  to_lower (fixed_hex true n v) = fixed_hex false n v.
Proof.
  induction n as [| n IH]; [reflexivity |].
  cbn [fixed_hex to_lower]. rewrite IH, lower_digit_char by apply nibble_range.
  reflexivity.
Qed.

Lemma fixed_hex_upper (n : nat) (v : Z) :
  all_chars is_upper_hex (fixed_hex true n v) = true.
Proof.
  induction n as [| n IH]; [reflexivity |].
  cbn [fixed_hex all_chars]. rewrite IH, upper_digit_char by apply nibble_range.
  reflexivity.
Qed.

Lemma parse_crc32_fixed (upper : bool) (v : Z) :
  is_u32 v -> parse_crc32 (fixed_hex upper 8 v) = Some v.
Proof.
  intros Hv. unfold parse_crc32. rewrite fixed_hex_length.
  cbn [Nat.eqb]. rewrite parse_hex_fixed.
  f_equal. change (16 ^ Z.of_nat 8) with modulus32.
  rewrite Z.mod_small by exact Hv. lia.
Qed.

(** C4. Round trip of digest text: the eight characters the result
    formatter writes for a 32-bit checksum parse back to that checksum. *)
Theorem digest_text_round_trip (v : Z) :
  is_u32 v ->
  parse_crc32 (format_crc v) = Some v
  /\ String.length (format_crc v) = 8%nat.
Proof.
  intros Hv. rewrite format_crc_fixed by exact Hv.
  split; [apply parse_crc32_fixed, Hv | apply fixed_hex_length].
Qed.

Lemma digest_text_round_trip_witness :
  parse_crc32 (format_crc 0xCBF43926) = Some 0xCBF43926
  /\ String.length (format_crc 0xCBF43926) = 8%nat.
Proof.
  apply (digest_text_round_trip 0xCBF43926).
  unfold is_u32, modulus32. lia.
Defined.

(** C6, as stated, fails: the text written for the checksum of
    ["123456789"] is in upper case. *)
Lemma canonical_text_not_lowercase :
  is_u32 0xCBF43926
  /\ format_crc 0xCBF43926 = "CBF43926"
  /\ all_chars is_lower_hex (format_crc 0xCBF43926) = false.
Proof.
  split; [unfold is_u32, modulus32; lia |].
  split; vm_compute; reflexivity.
Qed.

(** C6, amended. The text the program writes for a checksum consists of
    digits and the upper-case letters [A]-[F] only; the parser accepts it
    as written and also in lower case. *)
Theorem canonical_text_uppercase (v : Z) :
  is_u32 v ->
  all_chars is_upper_hex (format_crc v) = true
  /\ parse_crc32 (format_crc v) = Some v
  /\ parse_crc32 (to_lower (format_crc v)) = Some v.
Proof.
  intros Hv. rewrite format_crc_fixed by exact Hv.
  split; [apply fixed_hex_upper |].
  split; [apply parse_crc32_fixed, Hv |].
  rewrite to_lower_fixed. apply parse_crc32_fixed, Hv.
Qed.

Lemma canonical_text_uppercase_witness :
  all_chars is_upper_hex (format_crc 0x5F3759DF) = true
  /\ parse_crc32 (format_crc 0x5F3759DF) = Some 0x5F3759DF
  /\ parse_crc32 (to_lower (format_crc 0x5F3759DF)) = Some 0x5F3759DF.
Proof.
  apply (canonical_text_uppercase 0x5F3759DF).
  unfold is_u32, modulus32. lia.
Defined.

End DigestTextFacts.

(** ** The loop of [Invoke] *)

Section InvokeFacts.
Import Word Com Stream Shell Core ExplorerCommand.

Lemma insert_crc_buf (crc : Z) (os : wstringstream) :
  buf (insert_crc crc os) = buf os +:+ format_crc crc.
Proof. reflexivity. Qed.

Lemma insert_crc_width (crc : Z) (os : wstringstream) :
  width (insert_crc crc os) = 0%nat.
Proof. reflexivity. Qed.

Lemma process_item_spec (env : Env) (arr : IShellItemArray)
    (os : wstringstream) (i : Z) :
  width os = 0%nat ->
  buf (process_item env arr os i) = buf os +:+ item_text env arr i
  /\ width (process_item env arr os i) = 0%nat.
Proof.
  intros Hw. unfold process_item, item_text, resolved_path.
  destruct (GetItemAt arr i) as [pItem | hr];
    [| now rewrite str_app_nil_r].
  destruct (GetDisplayName pItem) as [hr [path |]];
    [| now rewrite str_app_nil_r].
  destruct (SUCCEEDED hr); [| now rewrite str_app_nil_r].
  unfold result_line, shown_outcome.
  destruct (quicksfv_crc32_file (files env) (Some path) =? 0); cbn [negb].
  - split; [| reflexivity].
    rewrite !put_string_buf by (try reflexivity; exact Hw).
    now rewrite !str_app_assoc.
  - split; [| reflexivity].
    rewrite put_string_buf by apply insert_crc_width.
    rewrite insert_crc_buf.
    rewrite !put_string_buf by (try reflexivity; exact Hw).
    now rewrite !str_app_assoc.
Qed.

Lemma process_list_spec (env : Env) (arr : IShellItemArray) (l : list Z) :
  forall os : wstringstream,
    width os = 0%nat ->
    buf (fold_left (process_item env arr) l os)
    = buf os +:+ concat_lines (item_text env arr <$> l).
Proof.
  induction l as [| i l IH]; intros os Hw; cbn [fold_left fmap list_fmap].
  - cbn. now rewrite str_app_nil_r.
  - destruct (process_item_spec env arr os i Hw) as [Hb Hw'].
    rewrite IH by exact Hw'. rewrite Hb, str_app_assoc. reflexivity.
Qed.

Lemma concat_item_text (env : Env) (arr : IShellItemArray) (l : list Z) :
  concat_lines (item_text env arr <$> l)
  = concat_lines (result_line env <$> omap (resolved_path arr) l).
Proof.
  induction l as [| i l IH]; [reflexivity |].
  cbn [fmap list_fmap omap list_omap concat_lines foldr].
  unfold item_text at 1.
  destruct (resolved_path arr i) as [path |]; cbn [fmap list_fmap foldr].
  - f_equal. exact IH.
  - exact IH.
Qed.

Lemma write_header_spec (env : Env) :
  buf (write_header env fresh_stream) = header_text env
  /\ width (write_header env fresh_stream) = 0%nat.
Proof.
  split; [| reflexivity].
  unfold write_header, header_text.
  rewrite !put_string_buf by reflexivity.
  cbn [buf fresh_stream String.append]. now rewrite !str_app_assoc.
Qed.

(** The whole of [Invoke] on a non-empty selection. *)
Lemma Invoke_spec (env : Env) (arr : IShellItemArray) (hr count : Z) :
  GetCount arr = (hr, count) -> FAILED hr = false -> count <> 0 ->
  Invoke env (Some arr)
  = (S_OK, Some (header_text env +:+ concat_lines (result_lines env arr count))).
Proof.
  intros Hc Hhr Hn. unfold Invoke. rewrite Hc, Hhr.
  destruct (Z.eqb_spec count 0) as [| _]; [contradiction |].
  cbn [orb]. unfold str, process_items, result_lines.
  destruct (write_header_spec env) as [Hb Hw].
  rewrite process_list_spec by exact Hw.
  now rewrite Hb, concat_item_text.
Qed.

(** Without a selection, or with an empty one, the command refuses and
    shows nothing. *)
Lemma Invoke_null (env : Env) : Invoke env None = (E_INVALIDARG, None).
Proof. reflexivity. Qed.

Lemma Invoke_empty (env : Env) (arr : IShellItemArray) (hr count : Z) :
  GetCount arr = (hr, count) -> FAILED hr = true \/ count = 0 ->
  Invoke env (Some arr) = (E_INVALIDARG, None).
Proof.
  intros Hc Hbad. unfold Invoke. rewrite Hc.
  destruct Hbad as [-> | ->]; [reflexivity |].
  now rewrite orb_true_r.
Qed.

Lemma length_omap_le {A B} (f : A -> option B) (l : list A) :
  (length (omap f l) <= length l)%nat.
Proof.
  induction l as [| a l IH]; cbn; [lia |].
  destruct (f a); cbn; lia.
Qed.

Lemma length_omap_full {A B} (f : A -> option B) (l : list A) :
  length (omap f l) = length l <-> Forall (fun a => is_Some (f a)) l.
Proof.
  induction l as [| a l IH]; cbn.
  - split; [constructor | reflexivity].
  - pose proof (length_omap_le f l) as Hle.
    destruct (f a) as [b |] eqn:Hfa; cbn.
    + split.
      * intros H. constructor; [rewrite Hfa; eauto |]. apply IH. lia.
      * intros H. inversion H; subst. f_equal. now apply IH.
    + split; [lia |].
      intros H. inversion H as [| ? ? Hs _]; subst.
      rewrite Hfa in Hs. destruct Hs as [? Hs]. discriminate.
Qed.

Lemma elem_of_indices (count i : Z) :
  i ∈ indices count <-> 0 <= i < count.
Proof.
  unfold indices. rewrite list_elem_of_fmap. split.
  - intros (n & -> & Hn). apply elem_of_seq in Hn. lia.
  - intros Hi. exists (Z.to_nat i). split; [lia |].
    apply elem_of_seq. lia.
Qed.

Lemma length_indices (count : Z) : length (indices count) = Z.to_nat count.
Proof. unfold indices. now rewrite length_fmap, length_seq. Qed.

End InvokeFacts.

(** ** What [Invoke] reports *)

Section ReportFacts.
Import Word Crc32 Com Stream Shell Core ExplorerCommand.

Lemma length_omap_filter {A B} (f : A -> option B) (l : list A) :
  length (omap f l) = length (filter (fun a => is_Some (f a)) l).
Proof.
  induction l as [| a l IH]; [reflexivity |].
  cbn [omap list_omap]. rewrite filter_cons.
  destruct (f a) as [b |] eqn:Hfa.
  - rewrite decide_True by eauto. cbn. now rewrite IH.
  - rewrite decide_False; [exact IH |].
    intros [b Hb]. discriminate.
Qed.

Lemma Invoke_single (env : Env) (path : string) :
  Invoke env (Some (selection [path]))
  = (S_OK, Some (header_text env +:+ result_line env path)).
Proof.
  rewrite (Invoke_spec env (selection [path]) S_OK 1); [| reflexivity .. | lia].
  unfold result_lines. change (indices 1) with [0].
  cbn [omap list_omap].
  change (resolved_path (selection [path]) 0) with (Some path).
  cbn [fmap list_fmap concat_lines foldr]. now rewrite str_app_nil_r.
Qed.

Lemma shows_outcome (env : Env) (path text : string) :
  shown_outcome env path = text -> shows env path text.
Proof.
  intros <-. unfold shows. rewrite Invoke_single. reflexivity.
Qed.

(** C1, as stated, fails: two items are selected, the first cannot be
    retrieved and the second has no file-system path; the command
    succeeds and the message shows the header and no line for either. *)
Lemma unresolved_items_leave_no_line :
  GetCount Examples.unresolved_items = (S_OK, 2)
  /\ Invoke Examples.env (Some Examples.unresolved_items)
     = (S_OK, Some (header_text Examples.env))
  /\ result_lines Examples.env Examples.unresolved_items 2 = [].
Proof. repeat split; vm_compute; reflexivity. Qed.

(** C1, amended. On a non-empty selection the command succeeds and the
    message consists of the header and exactly one line for each selected
    item whose retrieval and path resolution both succeed, in selection
    order; the other items contribute nothing, so every selected item has
    a line exactly when every item resolves. *)
Theorem one_line_per_resolved_item (env : Env) (arr : IShellItemArray)
    (hr count : Z) :
  GetCount arr = (hr, count) -> FAILED hr = false -> 0 < count ->
  Invoke env (Some arr)
  = (S_OK, Some (header_text env +:+ concat_lines (result_lines env arr count)))
  /\ length (result_lines env arr count)
     = length (filter (fun i => is_Some (resolved_path arr i)) (indices count))
  /\ (length (result_lines env arr count) = Z.to_nat count
      <-> forall i, 0 <= i < count -> is_Some (resolved_path arr i)).
Proof.
  intros Hc Hhr Hpos. split; [| split].
  - apply (Invoke_spec env arr hr count Hc Hhr). lia.
  - unfold result_lines. rewrite length_fmap. apply length_omap_filter.
  - unfold result_lines. rewrite length_fmap, <- length_indices.
    rewrite length_omap_full, Forall_forall.
    split; intros H i Hi; apply H; now apply elem_of_indices.
Qed.

Lemma one_line_per_resolved_item_witness :
  Invoke Examples.env (Some Examples.mixed_items)
  = (S_OK, Some (header_text Examples.env
                 +:+ concat_lines (result_lines Examples.env Examples.mixed_items 3)))
  /\ length (result_lines Examples.env Examples.mixed_items 3)
     = length (filter (fun i => is_Some (resolved_path Examples.mixed_items i))
                      (indices 3))
  /\ (length (result_lines Examples.env Examples.mixed_items 3) = Z.to_nat 3
      <-> forall i, 0 <= i < 3 -> is_Some (resolved_path Examples.mixed_items i)).
Proof.
  apply (one_line_per_resolved_item Examples.env Examples.mixed_items S_OK 3).
  - reflexivity.
  - reflexivity.
  - lia.
Defined.

(** C2, as stated, fails: a file that does not exist and a file that
    exists but cannot be read give the same message, with the one error
    text for both. *)
Lemma missing_and_unreadable_look_alike :
  files Examples.env_missing !! "C:\data\locked.bin" = None
  /\ files Examples.env !! "C:\data\locked.bin" = Some Unreadable
  /\ Invoke Examples.env_missing (Some (selection ["C:\data\locked.bin"]))
     = Invoke Examples.env (Some (selection ["C:\data\locked.bin"]))
  /\ shows Examples.env "C:\data\locked.bin" "ERROR (file not found or read error)".
Proof. repeat split; vm_compute; reflexivity. Qed.

(** C2, amended. When the file cannot be opened or read, whatever the
    cause, the command shows the one error text and no checksum; when the
    file is read and its checksum is not zero, the command shows the
    checksum. *)
Theorem open_failures_share_one_outcome (env : Env) (path : string) :
  match files env !! path with
  | None => shows env path ERROR_TEXT
  | Some Unreadable => shows env path ERROR_TEXT
  | Some (Contents data) =>
      crc32 data <> 0 -> shows env path (format_crc (crc32 data))
  end.
Proof.
  destruct (files env !! path) as [[| data] |] eqn:Hf.
  - apply shows_outcome. unfold shown_outcome, quicksfv_crc32_file.
    now rewrite Hf.
  - intros Hnz. apply shows_outcome. unfold shown_outcome, quicksfv_crc32_file.
    rewrite Hf. destruct (Z.eqb_spec (crc32 data) 0); [contradiction | reflexivity].
  - apply shows_outcome. unfold shown_outcome, quicksfv_crc32_file.
    now rewrite Hf.
Qed.

Lemma open_failures_share_one_outcome_witness :
  shows Examples.env "C:\data\locked.bin" ERROR_TEXT
  /\ shows Examples.env "C:\data\absent.bin" ERROR_TEXT
  /\ shows Examples.env "C:\data\check.txt" "CBF43926".
Proof.
  split; [| split].
  - exact (open_failures_share_one_outcome Examples.env "C:\data\locked.bin").
  - exact (open_failures_share_one_outcome Examples.env "C:\data\absent.bin").
  - pose proof (open_failures_share_one_outcome Examples.env "C:\data\check.txt") as H.
    change (files Examples.env !! "C:\data\check.txt")
      with (Some (Contents (list_byte_of_string "123456789"))) in H.
    cbv beta iota in H. apply H. vm_compute. lia.
Defined.

(** C9. Zero is both the error value of the file API and a checksum:
    [quicksfv_crc32] gives 0 for a NULL pointer, for a length of 0 and for
    a buffer whose checksum is zero, the empty one among them; for a file
    whose contents have the checksum zero [quicksfv_crc32_file] gives 0
    and the command shows the error text, the very message it shows when
    the file is not there, instead of [00000000]. *)
Theorem zero_checksum_shown_as_error (env : Env) (path : string) (data : list byte) :
  files env !! path = Some (Contents data) -> crc32 data = 0 ->
  (forall len, quicksfv_crc32 None len = 0)
  /\ (forall buf, quicksfv_crc32 (Some buf) 0 = 0)
  /\ quicksfv_crc32 (Some data) (length data) = 0
  /\ crc32 [] = 0
  /\ quicksfv_crc32_file (files env) (Some path) = 0
  /\ shows env path ERROR_TEXT
  /\ Invoke env (Some (selection [path]))
     = Invoke {| files := delete path (files env);
                 quicksfv_version := quicksfv_version env |}
              (Some (selection [path]))
  /\ format_crc (crc32 data) = "00000000".
Proof.
  intros Hf Hz.
  assert (Hfile : quicksfv_crc32_file (files env) (Some path) = 0).
  { unfold quicksfv_crc32_file. now rewrite Hf. }
  repeat split.
  - rewrite quicksfv_crc32_whole. exact Hz.
  - exact Hfile.
  - apply shows_outcome. unfold shown_outcome. now rewrite Hfile.
  - rewrite !Invoke_single. unfold result_line, shown_outcome.
    rewrite Hfile. cbn [files quicksfv_crc32_file].
    rewrite lookup_delete_eq. reflexivity.
  - now rewrite Hz.
Qed.

Lemma zero_checksum_shown_as_error_witness :
  shows Examples.env "C:\data\empty.bin" ERROR_TEXT
  /\ shows Examples.env "C:\data\zero.bin" ERROR_TEXT.
Proof.
  split.
  - apply (zero_checksum_shown_as_error Examples.env "C:\data\empty.bin" []).
    + reflexivity.
    + reflexivity.
  - apply (zero_checksum_shown_as_error Examples.env "C:\data\zero.bin"
             Examples.data_crc_zero).
    + reflexivity.
    + vm_compute. reflexivity.
Defined.

End ReportFacts.

(** ** Class lookup and the module reference count *)

Section LifetimeFacts.
Import Word Com Lifetime.

Lemma wrap_i32_small (z : Z) : - 2 ^ 31 <= z < 2 ^ 31 -> wrap_i32 z = z.
Proof.
  intros Hz. unfold wrap_i32, modulus32.
  rewrite Z.mod_small; lia.
Qed.

Lemma wrap_i32_add (x y : Z) : wrap_i32 (wrap_i32 x + y) = wrap_i32 (x + y).
Proof.
  unfold wrap_i32, modulus32. f_equal.
  replace ((x + 2 ^ 31) mod 2 ^ 32 - 2 ^ 31 + y + 2 ^ 31)
    with ((x + 2 ^ 31) mod 2 ^ 32 + y) by lia.
  rewrite Zplus_mod_idemp_l. f_equal. lia.
Qed.

Lemma wrap_i32_sub (x y : Z) : wrap_i32 (wrap_i32 x - y) = wrap_i32 (x - y).
Proof. apply (wrap_i32_add x (- y)). Qed.

Lemma tracks_ModuleAddRef (held : Z) (rt : Runtime) :
  tracks held rt -> tracks (held + 1) (ModuleAddRef rt).
Proof.
  unfold tracks, ModuleAddRef, live_objects. cbn [g_moduleRefCount heap snd]. intros ->.
  rewrite wrap_i32_add. f_equal. lia.
Qed.

Lemma tracks_ModuleRelease (held : Z) (rt : Runtime) :
  tracks held rt -> tracks (held - 1) (ModuleRelease rt).
Proof.
  unfold tracks, ModuleRelease, live_objects. cbn [g_moduleRefCount heap snd]. intros ->.
  rewrite wrap_i32_sub. f_equal. lia.
Qed.

Lemma tracks_construct (c : Class) (held : Z) (rt : Runtime) :
  tracks held rt -> tracks held (snd (construct c rt)).
Proof.
  unfold tracks, construct, ModuleAddRef, live_objects. cbn [g_moduleRefCount heap snd]. intros ->.
  rewrite wrap_i32_add. f_equal.
  rewrite map_size_insert_None; [lia |].
  apply not_elem_of_dom, is_fresh.
Qed.

Lemma construct_lookup (c : Class) (rt : Runtime) :
  heap (snd (construct c rt)) !! fst (construct c rt) = Some (mkObject c 1).
Proof. cbn. apply lookup_insert_eq. Qed.

Lemma tracks_destroy (p : positive) (held : Z) (rt : Runtime) :
  is_Some (heap rt !! p) -> tracks held rt -> tracks held (destroy p rt).
Proof.
  unfold tracks, destroy, ModuleRelease, live_objects.
  cbn [g_moduleRefCount heap snd]. intros [o Ho] ->.
  rewrite wrap_i32_sub. f_equal.
  pose proof (map_size_delete_Some p (heap rt) (ex_intro _ o Ho)) as Hs.
  assert (size (heap rt) <> 0%nat).
  { intros Hz. apply map_size_empty_iff in Hz. rewrite Hz in Ho.
    now rewrite lookup_empty in Ho. }
  lia.
Qed.

Lemma size_insert_present (p : positive) (o o' : Object) (m : gmap positive Object) :
  m !! p = Some o -> size (<[p := o']> m) = size m.
Proof. intros H. apply map_size_insert_Some. eauto. Qed.

Lemma tracks_AddRef (p : positive) (held : Z) (rt : Runtime) :
  tracks held rt -> tracks held (snd (AddRef p rt)).
Proof.
  unfold tracks, AddRef, live_objects. intros Ht.
  destruct (heap rt !! p) as [o |] eqn:Ho; [| exact Ht].
  cbn [g_moduleRefCount heap snd]. rewrite Ht. now rewrite (size_insert_present p o).
Qed.

Lemma tracks_Release (p : positive) (held : Z) (rt : Runtime) :
  tracks held rt -> tracks held (snd (Release p rt)).
Proof.
  unfold Release. intros Ht.
  destruct (heap rt !! p) as [o |] eqn:Ho; [| exact Ht].
  assert (Ht' : tracks held
            {| g_moduleRefCount := g_moduleRefCount rt;
               heap := <[p := mkObject (class o) (wrap_i32 (m_refCount o - 1))]> (heap rt) |}).
  { unfold tracks, live_objects in *. cbn [g_moduleRefCount heap snd].
    rewrite Ht. now rewrite (size_insert_present p o). }
  destruct (wrap_i32 (m_refCount o - 1) =? 0); cbn [snd]; [| exact Ht'].
  apply tracks_destroy; [| exact Ht'].
  cbn [heap]. rewrite lookup_insert_eq. eauto.
Qed.

Lemma tracks_QueryInterface (p : positive) (riid : GUID) (ppv : bool)
    (held : Z) (rt : Runtime) :
  tracks held rt -> tracks held (snd (QueryInterface p riid ppv rt)).
Proof.
  unfold QueryInterface. intros Ht.
  destruct ppv; cbn [negb]; [| exact Ht].
  destruct (heap rt !! p) as [o |]; [| exact Ht].
  destruct (supports (class o) riid); cbn [snd]; [| exact Ht].
  now apply tracks_AddRef.
Qed.

(** Construction followed by [QueryInterface] and [Release], the pattern of
    [CreateInstance] and [DllGetClassObject]. *)
Lemma tracks_hand_out (c : Class) (riid : GUID) (ppv : bool) (held : Z) (rt : Runtime) :
  tracks held rt ->
  tracks held
    (let '(p, rt) := construct c rt in
     let '(hr, out, rt) := QueryInterface p riid ppv rt in
     let '(_, rt) := Release p rt in
     rt).
Proof.
  intros Ht.
  pose proof (tracks_construct c held rt Ht) as H1.
  destruct (construct c rt) as [p rt1]. cbn [snd] in H1.
  pose proof (tracks_QueryInterface p riid ppv held rt1 H1) as H2.
  destruct (QueryInterface p riid ppv rt1) as [[hr out] rt2]. cbn [snd] in H2.
  pose proof (tracks_Release p held rt2 H2) as H3.
  destruct (Release p rt2) as [n rt3]. exact H3.
Qed.

Lemma tracks_CreateInstance (oom outer : bool) (riid : GUID) (ppv : bool)
    (held : Z) (rt : Runtime) :
  tracks held rt -> tracks held (snd (CreateInstance oom outer riid ppv rt)).
Proof.
  unfold CreateInstance. intros Ht.
  destruct ppv; cbn [negb]; [| exact Ht].
  destruct outer; [exact Ht |].
  destruct oom; [exact Ht |].
  pose proof (tracks_hand_out CommandClass riid true held rt Ht) as H.
  destruct (construct CommandClass rt) as [p rt1].
  destruct (QueryInterface p riid true rt1) as [[hr out] rt2].
  destruct (Release p rt2) as [n rt3]. exact H.
Qed.

Lemma tracks_DllGetClassObject (oom : bool) (rclsid riid : GUID) (ppv : bool)
    (held : Z) (rt : Runtime) :
  tracks held rt -> tracks held (snd (DllGetClassObject oom rclsid riid ppv rt)).
Proof.
  unfold DllGetClassObject. intros Ht.
  destruct ppv; cbn [negb]; [| exact Ht].
  destruct (bool_decide (rclsid = CLSID_QuickerSFVExplorerCommand));
    cbn [negb]; [| exact Ht].
  destruct oom; [exact Ht |].
  pose proof (tracks_hand_out FactoryClass riid true held rt Ht) as H.
  destruct (construct FactoryClass rt) as [p rt1].
  destruct (QueryInterface p riid true rt1) as [[hr out] rt2].
  destruct (Release p rt2) as [n rt3]. exact H.
Qed.

Lemma tracks_perform (c : Call) (held : Z) (rt : Runtime) :
  tracks held rt -> tracks (held + lock_delta c) (perform c rt).
Proof.
  intros Ht. destruct c as [oom rclsid riid ppv | oom outer riid ppv
                            | p riid ppv | p | p | fLock]; cbn [perform lock_delta].
  - rewrite Z.add_0_r. now apply tracks_DllGetClassObject.
  - rewrite Z.add_0_r. now apply tracks_CreateInstance.
  - rewrite Z.add_0_r. now apply tracks_QueryInterface.
  - rewrite Z.add_0_r. now apply tracks_AddRef.
  - rewrite Z.add_0_r. now apply tracks_Release.
  - destruct fLock; cbn [LockServer snd].
    + now apply tracks_ModuleAddRef.
    + now apply tracks_ModuleRelease.
Qed.

Lemma tracks_run (calls : list Call) :
  forall (held : Z) (rt : Runtime),
    tracks held rt ->
    tracks (fold_left (fun n c => n + lock_delta c) calls held) (run calls rt).
Proof.
  induction calls as [| c calls IH]; intros held rt Ht; [exact Ht |].
  cbn [fold_left run]. apply IH. now apply tracks_perform.
Qed.

Lemma balanced_from_nonneg (calls : list Call) :
  forall held : Z,
    0 <= held -> balanced_from held calls = true ->
    0 <= fold_left (fun n c => n + lock_delta c) calls held.
Proof.
  induction calls as [| c calls IH]; intros held Hh Hb; [exact Hh |].
  cbn [balanced_from] in Hb. apply andb_true_iff in Hb as [H1 H2].
  cbn [fold_left]. apply IH; [lia | exact H2].
Qed.

Lemma run_locks (n : nat) :
  forall (c : Z) (h : gmap positive Object),
    run (replicate n (CallLockServer true))
        {| g_moduleRefCount := wrap_i32 c; heap := h |}
    = {| g_moduleRefCount := wrap_i32 (c + Z.of_nat n); heap := h |}.
Proof.
  induction n as [| n IH]; intros c h.
  - cbn [replicate run fold_left]. do 2 f_equal. cbn [Z.of_nat]. lia.
  - cbn [replicate run fold_left perform LockServer snd].
    unfold ModuleAddRef. cbn [g_moduleRefCount heap].
    rewrite wrap_i32_add. fold (run (replicate n (CallLockServer true))).
    rewrite IH. do 2 f_equal. lia.
Qed.

Lemma balanced_locks (n : nat) :
  forall held : Z,
    0 <= held -> balanced_from held (replicate n (CallLockServer true)) = true.
Proof.
  induction n as [| n IH]; intros held Hh; [reflexivity |].
  cbn [replicate balanced_from lock_delta].
  rewrite IH by lia. destruct (Z.leb_spec 0 (held + 1)); [reflexivity | lia].
Qed.

Lemma held_locks (n : nat) :
  forall held : Z,
    fold_left (fun k c => k + lock_delta c) (replicate n (CallLockServer true)) held
    = held + Z.of_nat n.
Proof.
  induction n as [| n IH]; intros held.
  - cbn [replicate fold_left Z.of_nat]. lia.
  - cbn [replicate fold_left lock_delta]. rewrite IH. lia.
Qed.

(** C7, as stated, fails: with a NULL output pointer the lookup of an
    unknown class identifier returns [E_POINTER], which is not
    [CLASS_E_CLASSNOTAVAILABLE]. *)
Lemma unknown_class_with_null_pointer :
  IID_IUnknown <> CLSID_QuickerSFVExplorerCommand
  /\ DllGetClassObject false IID_IUnknown IID_IClassFactory false loaded
     = (E_POINTER, None, loaded)
  /\ E_POINTER <> CLASS_E_CLASSNOTAVAILABLE.
Proof. repeat split; vm_compute; discriminate. Qed.

(** C7, amended. The lookup of a class identifier other than the command's
    is a total function that fails explicitly and leaves the module as it
    is: with [CLASS_E_CLASSNOTAVAILABLE] when the output pointer is not
    NULL, with [E_POINTER] when it is; and [create] on an algorithm
    identifier without a factory is the failure [UnsupportedAlgorithm]. *)
Theorem unknown_identifier_fails_explicitly (oom : bool) (rclsid riid : GUID)
    (rt : Runtime) (reg : gmap string Provider.Algorithm) (id : string) :
  rclsid <> CLSID_QuickerSFVExplorerCommand ->
  reg !! id = None ->
  DllGetClassObject oom rclsid riid true rt = (CLASS_E_CLASSNOTAVAILABLE, None, rt)
  /\ DllGetClassObject oom rclsid riid false rt = (E_POINTER, None, rt)
  /\ FAILED CLASS_E_CLASSNOTAVAILABLE = true
  /\ FAILED E_POINTER = true
  /\ Registry.create id reg = Err Registry.UnsupportedAlgorithm.
Proof.
  intros Hclsid Hreg. repeat split.
  - unfold DllGetClassObject. cbn [negb].
    now rewrite bool_decide_eq_false_2.
  - unfold Registry.create. now rewrite Hreg.
Qed.

Lemma unknown_identifier_fails_explicitly_witness :
  DllGetClassObject false IID_IUnknown IID_IClassFactory true loaded
  = (CLASS_E_CLASSNOTAVAILABLE, None, loaded)
  /\ DllGetClassObject false IID_IUnknown IID_IClassFactory false loaded
     = (E_POINTER, None, loaded)
  /\ FAILED CLASS_E_CLASSNOTAVAILABLE = true
  /\ FAILED E_POINTER = true
  /\ Registry.create "sha1" Registry.builtin = Err Registry.UnsupportedAlgorithm.
Proof.
  apply (unknown_identifier_fails_explicitly false IID_IUnknown IID_IClassFactory
           loaded Registry.builtin "sha1").
  - compute_done.
  - reflexivity.
Defined.

(** C10, as stated, fails: after [LockServer(TRUE)] 2^31 times, a balanced
    sequence, the count is negative; after 2^32 times it is zero and the
    module reports itself unloadable while the locks are held. *)
Lemma module_count_wraps_around :
  balanced Examples.many_locks = true
  /\ locks_held Examples.many_locks = 2 ^ 31
  /\ ModuleGetRefCount (run Examples.many_locks loaded) < 0
  /\ balanced Examples.very_many_locks = true
  /\ locks_held Examples.very_many_locks = 2 ^ 32
  /\ DllCanUnloadNow (run Examples.very_many_locks loaded) = S_OK.
Proof.
  unfold Examples.many_locks, Examples.very_many_locks, balanced, locks_held.
  change loaded with {| g_moduleRefCount := wrap_i32 0; heap := ∅ |}.
  rewrite !run_locks, !held_locks, !balanced_locks by lia.
  rewrite !Z2Nat.id by lia.
  repeat split.
Qed.

(** C10, amended. Each construction and each [LockServer(TRUE)] increments
    the module count and each destruction and each [LockServer(FALSE)]
    decrements it, as a [LONG]; after any sequence of calls in which no
    unlock precedes its lock, and as long as the live objects and held
    locks number fewer than 2^31, the count is the number of live objects
    plus the locks held, it is not negative, and [DllCanUnloadNow] answers
    [S_OK] exactly when no object is alive and no lock is held. *)
Theorem module_count_tracks_live_objects (calls : list Call) :
  balanced calls = true ->
  live_objects (run calls loaded) + locks_held calls < 2 ^ 31 ->
  ModuleGetRefCount (run calls loaded)
  = live_objects (run calls loaded) + locks_held calls
  /\ 0 <= ModuleGetRefCount (run calls loaded)
  /\ (DllCanUnloadNow (run calls loaded) = S_OK
      <-> heap (run calls loaded) = ∅ /\ locks_held calls = 0)
  /\ (forall c rt, ModuleGetRefCount (snd (construct c rt))
                   = wrap_i32 (ModuleGetRefCount rt + 1))
  /\ (forall p rt, ModuleGetRefCount (destroy p rt)
                   = wrap_i32 (ModuleGetRefCount rt - 1))
  /\ (forall rt, ModuleGetRefCount (snd (LockServer true rt))
                 = wrap_i32 (ModuleGetRefCount rt + 1))
  /\ (forall rt, ModuleGetRefCount (snd (LockServer false rt))
                 = wrap_i32 (ModuleGetRefCount rt - 1)).
Proof.
  intros Hbal Hbound.
  assert (Hheld : 0 <= locks_held calls).
  { apply balanced_from_nonneg; [lia | exact Hbal]. }
  assert (Hlive : 0 <= live_objects (run calls loaded)).
  { unfold live_objects. lia. }
  assert (Hcount : ModuleGetRefCount (run calls loaded)
                   = live_objects (run calls loaded) + locks_held calls).
  { pose proof (tracks_run calls 0 loaded) as Ht.
    unfold tracks in Ht. unfold ModuleGetRefCount, locks_held.
    rewrite Ht by reflexivity.
    apply wrap_i32_small. unfold locks_held in *. lia. }
  split; [exact Hcount |]. split; [lia |].
  split; [| repeat split].
  unfold DllCanUnloadNow. rewrite Hcount.
  destruct (Z.eqb_spec (live_objects (run calls loaded) + locks_held calls) 0)
    as [Hz | Hnz].
  - split; [intros _ | reflexivity].
    split; [| lia].
    apply map_size_empty_iff. unfold live_objects in *. lia.
  - split; [discriminate |].
    intros [Hempty Hzero]. exfalso. apply Hnz.
    unfold live_objects. rewrite Hempty, map_size_empty. lia.
Qed.

Lemma module_count_tracks_live_objects_witness :
  ModuleGetRefCount (run Examples.session loaded)
  = live_objects (run Examples.session loaded) + locks_held Examples.session
  /\ 0 <= ModuleGetRefCount (run Examples.session loaded)
  /\ (DllCanUnloadNow (run Examples.session loaded) = S_OK
      <-> heap (run Examples.session loaded) = ∅ /\ locks_held Examples.session = 0).
Proof.
  destruct (module_count_tracks_live_objects Examples.session) as (H1 & H2 & H3 & _).
  - vm_compute. reflexivity.
  - vm_compute. reflexivity.
  - exact (conj H1 (conj H2 H3)).
Defined.

End LifetimeFacts.

(** ** The engine on one entry *)

Section EngineFacts.
Import Word Crc32 Provider Registry Manifest Core Engine ExplorerCommand.

Lemma concat_chunks (k fuel : nat) :
  forall data : list byte,
    (length data <= fuel)%nat -> concat (chunks fuel k data) = data.
Proof.
  induction fuel as [| fuel IH]; intros data Hlen.
  - destruct data; [reflexivity | cbn in Hlen; lia].
  - destruct data as [| b data]; [reflexivity |].
    cbn [chunks concat]. rewrite IH.
    + apply take_drop.
    + rewrite length_drop. cbn [length] in *. lia.
Qed.

Lemma concat_chunks_of (k : nat) (data : list byte) :
  concat (chunks_of k data) = data.
Proof. apply concat_chunks. lia. Qed.

(** A fresh provider never refuses its chunks. *)
Lemma update_all_streaming (alg : Algorithm) (cs : list (list byte)) :
  forall r : Z,
    update_all cs (mkInstance alg (Streaming r))
    = Ok (mkInstance alg (Streaming (fold_left (alg_update alg) cs r))).
Proof.
  induction cs as [| c cs IH]; intros r; [reflexivity |].
  cbn [update_all update current algorithm mbind result_bind fold_left].
  apply IH.
Qed.

Lemma stream_ok (alg : Algorithm) (k : nat) (data : list byte) :
  stream (begin alg) k data
  = Ok (alg_final alg (fold_left (alg_update alg) (chunks_of k data) (alg_init alg))).
Proof.
  unfold stream, begin. rewrite update_all_streaming. reflexivity.
Qed.

Lemma stream_crc32 (k : nat) (data : list byte) :
  stream (begin CRC32) k data = Ok (crc32 data).
Proof.
  unfold stream, begin. cbn [alg_init CRC32].
  rewrite update_all_crc32, concat_chunks_of. reflexivity.
Qed.

Lemma create_builtin_crc32 : create "crc32" builtin = Ok (begin CRC32).
Proof. reflexivity. Qed.

(** Every entry gets a verdict. *)
Lemma verify_entry_total (reg : gmap string Algorithm) (fs : FileSystem)
    (k : nat) (e : ManifestEntry) :
  exists r, verify_entry reg fs k e = Ok r.
Proof.
  unfold verify_entry, create.
  destruct (reg !! algorithm_id e) as [alg |]; [| eauto].
  destruct (fs !! path e) as [[| data] |]; [eauto | | eauto].
  rewrite stream_ok. cbn [mbind result_bind]. eauto.
Qed.

(** The verdict on an entry depends on the file system through the
    entry's own file only. *)
Lemma verify_entry_local (reg : gmap string Algorithm) (fs fs' : FileSystem)
    (k : nat) (e : ManifestEntry) :
  fs' !! path e = fs !! path e ->
  verify_entry reg fs' k e = verify_entry reg fs k e.
Proof. intros H. unfold verify_entry. now rewrite H. Qed.

(** C5. The line [file.bin 5F3759DF] is the CRC32 entry for [file.bin];
    verified against a file with that checksum the outcome is [Matched],
    against a file with another checksum it is [Mismatched] and the result
    carries the expected and the computed digest.  The checksum of the
    bytes of ["123456789"] is [CBF43926]. *)
Theorem manifest_entry_matched_or_mismatched (fs : FileSystem) (k : nat)
    (data : list byte) :
  fs !! "file.bin" = Some (Contents data) ->
  parse_line ("file.bin 5F3759DF" +:+ nl)
  = Entry (mkEntry "file.bin" 0x5F3759DF "crc32")
  /\ (crc32 data = 0x5F3759DF ->
      verify_entry builtin fs k (mkEntry "file.bin" 0x5F3759DF "crc32")
      = Ok (mkResult "file.bin" "crc32" Matched 0x5F3759DF (Some 0x5F3759DF)))
  /\ (crc32 data <> 0x5F3759DF ->
      verify_entry builtin fs k (mkEntry "file.bin" 0x5F3759DF "crc32")
      = Ok (mkResult "file.bin" "crc32" Mismatched 0x5F3759DF (Some (crc32 data))))
  /\ crc32 (list_byte_of_string "123456789") = 0xCBF43926
  /\ quicksfv_crc32 (Some (list_byte_of_string "123456789")) 9 = 0xCBF43926.
Proof.
  intros Hfile.
  assert (Hv : verify_entry builtin fs k (mkEntry "file.bin" 0x5F3759DF "crc32")
               = Ok (mkResult "file.bin" "crc32"
                       (if crc32 data =? 0x5F3759DF then Matched else Mismatched)
                       0x5F3759DF (Some (crc32 data)))).
  { unfold verify_entry. cbn [algorithm_id path expected].
    rewrite create_builtin_crc32, Hfile, stream_crc32. reflexivity. }
  split; [vm_compute; reflexivity |].
  split; [| split; [| split; vm_compute; reflexivity]].
  - intros Heq. rewrite Hv, Heq. reflexivity.
  - intros Hne. rewrite Hv.
    destruct (Z.eqb_spec (crc32 data) 0x5F3759DF); [contradiction | reflexivity].
Qed.

Lemma manifest_entry_matched_or_mismatched_witness :
  verify_entry builtin Examples.disk 3 (mkEntry "file.bin" 0x5F3759DF "crc32")
  = Ok (mkResult "file.bin" "crc32" Matched 0x5F3759DF (Some 0x5F3759DF))
  /\ verify_entry builtin (<["file.bin" := Contents []]> Examples.disk) 3
       (mkEntry "file.bin" 0x5F3759DF "crc32")
     = Ok (mkResult "file.bin" "crc32" Mismatched 0x5F3759DF (Some 0)).
Proof.
  split.
  - apply (manifest_entry_matched_or_mismatched Examples.disk 3 Examples.data_5F3759DF).
    + reflexivity.
    + vm_compute. reflexivity.
  - apply (manifest_entry_matched_or_mismatched
             (<["file.bin" := Contents []]> Examples.disk) 3 []).
    + reflexivity.
    + vm_compute. lia.
Defined.

End EngineFacts.

(** ** The worker pool *)

Section PoolFacts.
Import Provider Registry Manifest Core Engine Pool.

Variable reg : gmap string Algorithm.
Variable fs : FileSystem.
Variable k : nat.

Local Abbreviation finish := (Pool.finish reg fs k).
Local Abbreviation step := (Pool.step reg fs k).
Local Abbreviation run := (Pool.run reg fs k).
Local Abbreviation accounted := (Pool.accounted reg fs k).

#[local] Instance by_position_transitive : Transitive by_position.
Proof. intros a b c. unfold by_position. lia. Qed.

#[local] Instance by_position_total : Total by_position.
Proof. intros a b. unfold by_position. lia. Qed.

(** *** Jobs are neither lost nor duplicated *)

Lemma held_after_pull (ws : list (option (nat * ManifestEntry))) :
  forall (w : nat) (job : nat * ManifestEntry),
    ws !! w = Some None ->
    omap id (<[w := Some job]> ws) ≡ₚ job :: omap id ws.
Proof.
  induction ws as [| slot ws IH]; intros w job Hw; [discriminate |].
  destruct w as [| w].
  - cbn in Hw. injection Hw as ->. reflexivity.
  - cbn in Hw. cbn [insert list_insert omap list_omap].
    destruct slot as [held |]; cbn [id].
    + rewrite (IH w job Hw). apply Permutation_swap.
    + apply (IH w job Hw).
Qed.

Lemma held_before_completion (ws : list (option (nat * ManifestEntry))) :
  forall (w : nat) (job : nat * ManifestEntry),
    ws !! w = Some (Some job) ->
    omap id ws ≡ₚ job :: omap id (<[w := None]> ws).
Proof.
  induction ws as [| slot ws IH]; intros w job Hw; [discriminate |].
  destruct w as [| w].
  - cbn in Hw. injection Hw as ->. reflexivity.
  - cbn in Hw. cbn [insert list_insert omap list_omap].
    destruct slot as [held |]; cbn [id].
    + rewrite (IH w job Hw) at 1. apply Permutation_swap.
    + apply (IH w job Hw).
Qed.

Lemma step_accounted (st : pool) (w : nat) :
  accounted (step st w) ≡ₚ accounted st.
Proof.
  unfold Pool.accounted, pending, Pool.step.
  destruct (workers st !! w) as [[job |] |] eqn:Hw; [| | reflexivity].
  - cbn [queue workers collector].
    rewrite (held_before_completion (workers st) w job Hw).
    rewrite <- app_assoc. apply Permutation_app_head.
    rewrite !fmap_app, fmap_cons. cbn [app].
    apply Permutation_middle.
  - destruct (queue st) as [| job rest] eqn:Hq; cbn [queue workers collector];
      rewrite ?Hq; [reflexivity |].
    apply Permutation_app_head. apply fmap_Permutation.
    rewrite (held_after_pull (workers st) w job Hw).
    cbn [app]. symmetry. apply Permutation_middle.
Qed.

Lemma run_accounted (schedule : list nat) :
  forall st : pool, accounted (run schedule st) ≡ₚ accounted st.
Proof.
  induction schedule as [| w schedule IH]; intros st; [reflexivity |].
  cbn [Pool.run fold_left]. fold (run schedule (step st w)).
  rewrite IH. apply step_accounted.
Qed.

Lemma finished_nothing_pending (st : pool) :
  finished st = true -> pending st = [].
Proof.
  unfold finished, pending.
  destruct (queue st); [| discriminate].
  intros Hidle. cbn [app].
  induction (workers st) as [| slot ws IH]; [reflexivity |].
  cbn [forallb] in Hidle. apply andb_true_iff in Hidle as [Hslot Hws].
  destruct slot; [discriminate |]. cbn. now apply IH.
Qed.

Lemma start_accounted (n : nat) (manifest : list ManifestEntry) :
  accounted (start n manifest) = finish <$> enumerate_from 0 manifest.
Proof.
  unfold Pool.accounted, pending, start. cbn [queue workers collector app].
  f_equal. replace (omap id (replicate n None)) with (@nil (nat * ManifestEntry)).
  - apply app_nil_r.
  - induction n as [| n IH]; [reflexivity | exact IH].
Qed.

(** *** The collector in manifest order *)

Lemma positions_from (i j : nat) (manifest : list ManifestEntry) :
  (j <= i)%nat ->
  Forall (fun x => (j <= fst x)%nat) (finish <$> enumerate_from i manifest).
Proof.
  revert i. induction manifest as [| e rest IH]; intros i Hji; [constructor |].
  cbn [enumerate_from fmap list_fmap]. constructor; [exact Hji |].
  apply IH. lia.
Qed.

Lemma enumerate_sorted (i : nat) (manifest : list ManifestEntry) :
  StronglySorted by_position (finish <$> enumerate_from i manifest).
Proof.
  revert i. induction manifest as [| e rest IH]; intros i; [constructor |].
  cbn [enumerate_from fmap list_fmap]. constructor; [apply IH |].
  apply (positions_from (S i) i rest). lia.
Qed.

Lemma enumerate_position_unique (i : nat) (manifest : list ManifestEntry)
    (x y : nat * verdict) :
  x ∈ finish <$> enumerate_from i manifest ->
  y ∈ finish <$> enumerate_from i manifest ->
  fst x = fst y -> x = y.
Proof.
  revert i. induction manifest as [| e rest IH]; intros i Hx Hy Hxy.
  - inversion Hx.
  - cbn [enumerate_from fmap list_fmap] in Hx, Hy.
    pose proof (positions_from (S i) (S i) rest (le_n _)) as Hpos.
    rewrite Forall_forall in Hpos.
    apply elem_of_cons in Hx as [-> | Hx]; apply elem_of_cons in Hy as [-> | Hy].
    + reflexivity.
    + specialize (Hpos _ Hy). cbn in Hxy. lia.
    + specialize (Hpos _ Hx). cbn in Hxy. lia.
    + exact (IH (S i) Hx Hy Hxy).
Qed.

Lemma enumerate_verdicts (i : nat) (manifest : list ManifestEntry) :
  snd <$> (finish <$> enumerate_from i manifest)
  = verify_entry reg fs k <$> manifest.
Proof.
  revert i. induction manifest as [| e rest IH]; intros i; [reflexivity |].
  cbn [enumerate_from fmap list_fmap]. f_equal. apply IH.
Qed.

(** The report of a finished run is the list of verdicts in manifest
    order, whatever the number of workers and the schedule. *)
Lemma finished_report (n : nat) (schedule : list nat) (manifest : list ManifestEntry) :
  finished (run schedule (start n manifest)) = true ->
  verify_with reg fs k n schedule manifest = verify_entry reg fs k <$> manifest.
Proof.
  intros Hfin. unfold verify_with, report.
  pose proof (run_accounted schedule (start n manifest)) as Hacc.
  rewrite start_accounted in Hacc. unfold Pool.accounted in Hacc.
  rewrite (finished_nothing_pending _ Hfin) in Hacc.
  cbn [fmap list_fmap] in Hacc. rewrite app_nil_r in Hacc.
  rewrite <- (enumerate_verdicts 0 manifest). f_equal.
  apply (StronglySorted_unique_strong by_position).
  - intros x y Hx Hy Hxy Hyx. unfold by_position in Hxy, Hyx.
    apply (enumerate_position_unique 0 manifest); [| exact Hy | lia].
    rewrite <- Hacc. now rewrite <- (merge_sort_Permutation by_position).
  - apply (StronglySorted_merge_sort by_position).
  - apply enumerate_sorted.
  - rewrite merge_sort_Permutation. exact Hacc.
Qed.

(** *** A single worker gets through the queue *)

Lemma run_sequential (q : list (nat * ManifestEntry)) :
  forall (c : list (nat * verdict)) (ws : list (option (nat * ManifestEntry))),
    run (replicate (2 * length q) 0%nat)
        {| queue := q; workers := None :: ws; collector := c |}
    = {| queue := []; workers := None :: ws; collector := c ++ (finish <$> q) |}.
Proof.
  induction q as [| job q IH]; intros c ws.
  - cbn. now rewrite app_nil_r.
  - replace (2 * length (job :: q))%nat with (S (S (2 * length q))) by (cbn; lia).
    cbn [replicate Pool.run fold_left].
    change (fold_left step (replicate (2 * length q) 0%nat) ?st)
      with (run (replicate (2 * length q) 0%nat) st).
    unfold Pool.step at 2. cbn [workers queue collector lookup list_lookup].
    unfold Pool.step at 1. cbn [workers queue collector lookup list_lookup
                                insert list_insert].
    rewrite IH. cbn [fmap list_fmap]. now rewrite <- app_assoc.
Qed.

Lemma enumerate_length (i : nat) (manifest : list ManifestEntry) :
  length (enumerate_from i manifest) = length manifest.
Proof.
  revert i. induction manifest as [| e rest IH]; intros i; [reflexivity |].
  cbn. now rewrite IH.
Qed.

Lemma sequential_finishes (n : nat) (manifest : list ManifestEntry) :
  finished (run (sequential_schedule manifest) (start (S n) manifest)) = true.
Proof.
  unfold sequential_schedule, start. cbn [replicate].
  rewrite <- (enumerate_length 0 manifest), run_sequential.
  unfold finished. cbn [queue workers forallb idle andb].
  induction n as [| n IH]; [reflexivity | exact IH].
Qed.

(** C8. For a fixed manifest and file set, the re-sorted report of a
    finished run is the same for any two numbers of workers and any two
    schedules: it is the list of the entries' verdicts in manifest order.
    A single worker does finish, whatever the size of the pool; every entry
    gets a verdict, and the verdict depends on the file system through the
    entry's own file only. *)
Theorem report_independent_of_workers (manifest : list ManifestEntry)
    (n1 n2 : nat) (s1 s2 : list nat) :
  finished (run s1 (start n1 manifest)) = true ->
  finished (run s2 (start n2 manifest)) = true ->
  verify_with reg fs k n1 s1 manifest = verify_with reg fs k n2 s2 manifest
  /\ verify_with reg fs k n1 s1 manifest = verify_entry reg fs k <$> manifest
  /\ (forall n, finished (run (sequential_schedule manifest) (start (S n) manifest))
                = true)
  /\ (forall e, exists r, verify_entry reg fs k e = Ok r)
  /\ (forall fs' e, fs' !! path e = fs !! path e ->
                    verify_entry reg fs' k e = verify_entry reg fs k e).
Proof.
  intros H1 H2. split; [| split; [| split; [| split]]].
  - now rewrite !finished_report.
  - now apply finished_report.
  - intros n. apply sequential_finishes.
  - intros e. apply verify_entry_total.
  - intros fs' e. apply verify_entry_local.
Qed.

End PoolFacts.

Lemma report_independent_of_workers_witness :
  Pool.verify_with Registry.builtin Examples.disk 3 1
    (Pool.sequential_schedule Examples.manifest) Examples.manifest
  = Pool.verify_with Registry.builtin Examples.disk 3 3
      Examples.interleaved Examples.manifest.
Proof.
  apply (report_independent_of_workers Registry.builtin Examples.disk 3
           Examples.manifest 1 3
           (Pool.sequential_schedule Examples.manifest) Examples.interleaved).
  - vm_compute. reflexivity.
  - vm_compute. reflexivity.
Defined.

(** ** Handing out objects *)

Section HandOutFacts.
Import Word Com Lifetime RefTrace.

Lemma wrap_i32_long (z : Z) : is_long z -> wrap_i32 z = z.
Proof. intros Hz. apply wrap_i32_small. exact Hz. Qed.

Lemma wrap_i32_up_down (z : Z) : is_long z -> wrap_i32 (wrap_i32 (z + 1) - 1) = z.
Proof.
  intros Hz. rewrite wrap_i32_sub.
  replace (z + 1 - 1) with z by lia. now apply wrap_i32_long.
Qed.

Lemma wrap_i32_down_up (z : Z) : is_long z -> wrap_i32 (wrap_i32 (z - 1) + 1) = z.
Proof.
  intros Hz. rewrite wrap_i32_add.
  replace (z - 1 + 1) with z by lia. now apply wrap_i32_long.
Qed.

Lemma fresh_not_live (rt : Runtime) : heap rt !! fresh (dom (heap rt)) = None.
Proof. apply not_elem_of_dom, is_fresh. Qed.

Lemma AddRef_live (p : positive) (o : Object) (rt : Runtime) :
  heap rt !! p = Some o ->
  AddRef p rt
  = (wrap_i32 (m_refCount o + 1),
     {| g_moduleRefCount := g_moduleRefCount rt;
        heap := <[p := mkObject (class o) (wrap_i32 (m_refCount o + 1))]> (heap rt) |}).
Proof. intros Ho. unfold AddRef. now rewrite Ho. Qed.

Lemma Release_live (p : positive) (o : Object) (rt : Runtime) :
  heap rt !! p = Some o -> wrap_i32 (m_refCount o - 1) <> 0 ->
  Release p rt
  = (wrap_i32 (m_refCount o - 1),
     {| g_moduleRefCount := g_moduleRefCount rt;
        heap := <[p := mkObject (class o) (wrap_i32 (m_refCount o - 1))]> (heap rt) |}).
Proof.
  intros Ho Hnz. unfold Release. rewrite Ho.
  destruct (Z.eqb_spec (wrap_i32 (m_refCount o - 1)) 0); [contradiction | reflexivity].
Qed.

Lemma Release_last (p : positive) (o : Object) (rt : Runtime) :
  heap rt !! p = Some o -> wrap_i32 (m_refCount o - 1) = 0 ->
  Release p rt
  = (0, {| g_moduleRefCount := wrap_i32 (g_moduleRefCount rt - 1);
           heap := delete p (heap rt) |}).
Proof.
  intros Ho Hz. unfold Release. rewrite Ho, Hz. cbn [Z.eqb].
  unfold destroy, ModuleRelease. cbn [g_moduleRefCount heap].
  now rewrite delete_insert_eq.
Qed.

Lemma QueryInterface_live (p : positive) (o : Object) (riid : GUID) (rt : Runtime) :
  heap rt !! p = Some o ->
  QueryInterface p riid true rt
  = if supports (class o) riid
    then (S_OK, Some p, snd (AddRef p rt))
    else (E_NOINTERFACE, None, rt).
Proof. intros Ho. unfold QueryInterface. cbn [negb]. now rewrite Ho. Qed.

(** Construction, [QueryInterface] and [Release] in a row: either the
    caller ends up with the one reference to a new object, or nothing has
    changed. *)
Lemma hand_out_result (c : Class) (riid : GUID) (rt : Runtime) :
  is_long (g_moduleRefCount rt) ->
  (let '(p, rt1) := construct c rt in
   let '(hr, out, rt2) := QueryInterface p riid true rt1 in
   let '(_, rt3) := Release p rt2 in
   (hr, out, rt3))
  = if supports c riid
    then (S_OK, Some (fresh (dom (heap rt))),
          {| g_moduleRefCount := wrap_i32 (g_moduleRefCount rt + 1);
             heap := <[fresh (dom (heap rt)) := mkObject c 1]> (heap rt) |})
    else (E_NOINTERFACE, None, rt).
Proof.
  intros Hlong. unfold construct, ModuleAddRef.
  cbn [g_moduleRefCount heap].
  pose proof (fresh_not_live rt) as Hp. revert Hp.
  generalize (fresh (dom (heap rt))). intros p Hp.
  cbv beta iota zeta.
  rewrite (QueryInterface_live p (mkObject c 1)) by apply lookup_insert_eq.
  cbn [class]. destruct (supports c riid).
  - rewrite (AddRef_live p (mkObject c 1)) by apply lookup_insert_eq.
    cbn [snd m_refCount class g_moduleRefCount heap].
    change (wrap_i32 (1 + 1)) with 2.
    rewrite (Release_live p (mkObject c 2));
      [| apply lookup_insert_eq | cbn [m_refCount]; vm_compute; discriminate].
    cbn [m_refCount class g_moduleRefCount heap].
    change (wrap_i32 (2 - 1)) with 1.
    now rewrite !insert_insert_eq.
  - rewrite (Release_last p (mkObject c 1));
      [| apply lookup_insert_eq | reflexivity].
    cbn [g_moduleRefCount heap].
    rewrite delete_insert_eq, delete_id by exact Hp.
    rewrite wrap_i32_up_down by exact Hlong.
    destruct rt; reflexivity.
Qed.

(** X1. [DllGetClassObject] is all or nothing.  Called for the command's
    class with a non-NULL out pointer, memory at hand and an interface the
    factory has, it succeeds: the caller gets the address of a new factory
    that holds exactly the caller's reference, and the module count goes up
    by one.  In every other case it fails, stores NULL and leaves the
    module exactly as it was: the factory it may have built is gone
    again. *)
Theorem DllGetClassObject_all_or_nothing (oom : bool) (rclsid riid : GUID)
    (ppv : bool) (rt : Runtime) :
  is_long (g_moduleRefCount rt) ->
  (ppv = true /\ rclsid = CLSID_QuickerSFVExplorerCommand /\ oom = false
   /\ supports FactoryClass riid = true
   /\ DllGetClassObject oom rclsid riid ppv rt
      = (S_OK, Some (fresh (dom (heap rt))),
         {| g_moduleRefCount := wrap_i32 (g_moduleRefCount rt + 1);
            heap := <[fresh (dom (heap rt)) := mkObject FactoryClass 1]> (heap rt) |}))
  \/ ((ppv = false \/ rclsid <> CLSID_QuickerSFVExplorerCommand \/ oom = true
       \/ supports FactoryClass riid = false)
      /\ exists hr, FAILED hr = true
                    /\ DllGetClassObject oom rclsid riid ppv rt = (hr, None, rt)).
Proof.
  intros Hlong. unfold DllGetClassObject.
  destruct ppv; cbn [negb]; [| right; split; [auto | exists E_POINTER; auto]].
  destruct (bool_decide_reflect (rclsid = CLSID_QuickerSFVExplorerCommand))
    as [Hc | Hc]; cbn [negb];
    [| right; split; [auto | exists CLASS_E_CLASSNOTAVAILABLE; auto]].
  destruct oom; [right; split; [auto | exists E_OUTOFMEMORY; auto] |].
  rewrite (hand_out_result FactoryClass riid rt Hlong).
  destruct (supports FactoryClass riid) eqn:Hs.
  - left. auto.
  - right. split; [auto | exists E_NOINTERFACE; auto].
Qed.

Lemma DllGetClassObject_all_or_nothing_witness :
  DllGetClassObject false CLSID_QuickerSFVExplorerCommand IID_IClassFactory true loaded
  = (S_OK, Some 1%positive,
     {| g_moduleRefCount := 1; heap := {[ 1%positive := mkObject FactoryClass 1 ]} |})
  /\ DllGetClassObject false CLSID_QuickerSFVExplorerCommand IID_IExplorerCommand
       true MoreExamples.one_factory
     = (E_NOINTERFACE, None, MoreExamples.one_factory).
Proof.
  split.
  - destruct (DllGetClassObject_all_or_nothing false CLSID_QuickerSFVExplorerCommand
                IID_IClassFactory true loaded) as [(_ & _ & _ & _ & H) | [[H | [H | [H | H]]] _]].
    + unfold is_long. cbn. lia.
    + rewrite H. vm_compute. reflexivity.
    + discriminate H.
    + exfalso. apply H. reflexivity.
    + discriminate H.
    + vm_compute in H. discriminate H.
  - destruct (DllGetClassObject_all_or_nothing false CLSID_QuickerSFVExplorerCommand
                IID_IExplorerCommand true MoreExamples.one_factory)
      as [(_ & _ & _ & H & _) | [_ (hr & _ & H)]].
    + unfold is_long. cbn. lia.
    + vm_compute in H. discriminate H.
    + rewrite H. f_equal. f_equal.
      assert (Hhr : fst (fst (DllGetClassObject false CLSID_QuickerSFVExplorerCommand
                            IID_IExplorerCommand true MoreExamples.one_factory)) = hr)
        by now rewrite H.
      rewrite <- Hhr. vm_compute. reflexivity.
Defined.

(** X2. [CreateInstance] is all or nothing.  With a non-NULL out pointer,
    no outer unknown, memory at hand and an interface the command has, it
    succeeds: the caller gets the address of a new command that holds
    exactly the caller's reference, and the module count goes up by one.
    In every other case it fails, stores NULL and leaves the module exactly
    as it was. *)
Theorem CreateInstance_all_or_nothing (oom outer : bool) (riid : GUID)
    (ppv : bool) (rt : Runtime) :
  is_long (g_moduleRefCount rt) ->
  (ppv = true /\ outer = false /\ oom = false /\ supports CommandClass riid = true
   /\ CreateInstance oom outer riid ppv rt
      = (S_OK, Some (fresh (dom (heap rt))),
         {| g_moduleRefCount := wrap_i32 (g_moduleRefCount rt + 1);
            heap := <[fresh (dom (heap rt)) := mkObject CommandClass 1]> (heap rt) |}))
  \/ ((ppv = false \/ outer = true \/ oom = true \/ supports CommandClass riid = false)
      /\ exists hr, FAILED hr = true
                    /\ CreateInstance oom outer riid ppv rt = (hr, None, rt)).
Proof.
  intros Hlong. unfold CreateInstance.
  destruct ppv; cbn [negb]; [| right; split; [auto | exists E_POINTER; auto]].
  destruct outer; [right; split; [auto | exists CLASS_E_NOAGGREGATION; auto] |].
  destruct oom; [right; split; [auto | exists E_OUTOFMEMORY; auto] |].
  rewrite (hand_out_result CommandClass riid rt Hlong).
  destruct (supports CommandClass riid) eqn:Hs.
  - left. auto.
  - right. split; [auto | exists E_NOINTERFACE; auto].
Qed.

Lemma CreateInstance_all_or_nothing_witness :
  exists hr, FAILED hr = true
             /\ CreateInstance false true IID_IExplorerCommand true MoreExamples.one_factory
                = (hr, None, MoreExamples.one_factory).
Proof.
  destruct (CreateInstance_all_or_nothing false true IID_IExplorerCommand true
              MoreExamples.one_factory) as [(_ & H & _) | [_ H]].
  - unfold is_long. cbn. lia.
  - discriminate H.
  - exact H.
Defined.

End HandOutFacts.

(** ** Reference counts along sequences of calls *)

Section RefCountFacts.
Import Word Com Lifetime RefTrace.

Lemma net_refs_from (ops : list bool) :
  forall n : Z, fold_left (fun n add => n + ref_step add) ops n = n + net_refs ops.
Proof.
  unfold net_refs. induction ops as [| add ops IH]; intros n; cbn [fold_left].
  - lia.
  - rewrite (IH (n + ref_step add)), (IH (0 + ref_step add)). lia.
Qed.

Lemma net_refs_cons (add : bool) (ops : list bool) :
  net_refs (add :: ops) = ref_step add + net_refs ops.
Proof.
  unfold net_refs at 1. cbn [fold_left]. rewrite net_refs_from. lia.
Qed.

(** While the count stays between 1 and 2^31 - 1, [AddRef]s and
    [Release]s on an object change its count by their net number and
    nothing else. *)
Lemma ref_calls_run (ops : list bool) :
  forall (p : positive) (o : Object) (rt : Runtime),
    heap rt !! p = Some o ->
    stays_referenced (m_refCount o) ops = true ->
    run (ref_call p <$> ops) rt
    = {| g_moduleRefCount := g_moduleRefCount rt;
         heap := <[p := mkObject (class o) (m_refCount o + net_refs ops)]> (heap rt) |}.
Proof.
  induction ops as [| add ops IH]; intros p o rt Ho Hstay.
  - cbn [fmap list_fmap run fold_left]. unfold net_refs. cbn [fold_left].
    rewrite Z.add_0_r. destruct o as [c m]. cbn [class m_refCount].
    rewrite insert_id by exact Ho. destruct rt; reflexivity.
  - cbn [stays_referenced] in Hstay.
    apply andb_true_iff in Hstay as [Hrange Hrest].
    apply andb_true_iff in Hrange as [Hlo Hhi].
    apply Z.leb_le in Hlo. apply Z.ltb_lt in Hhi.
    cbn [fmap list_fmap run fold_left].
    change (fold_left (fun rt c => perform c rt) (ref_call p <$> ops) ?st)
      with (run (ref_call p <$> ops) st).
    assert (Hstep : perform (ref_call p add) rt
                    = {| g_moduleRefCount := g_moduleRefCount rt;
                         heap := <[p := mkObject (class o) (m_refCount o + ref_step add)]>
                                   (heap rt) |}).
    { destruct add; cbn [ref_call perform ref_step] in *.
      - rewrite (AddRef_live p o rt Ho). cbn [snd].
        now rewrite wrap_i32_small by lia.
      - rewrite (Release_live p o rt Ho); rewrite wrap_i32_small by lia;
          [reflexivity | lia]. }
    rewrite Hstep.
    rewrite (IH p (mkObject (class o) (m_refCount o + ref_step add)));
      [| cbn [heap]; apply lookup_insert_eq | exact Hrest].
    cbn [g_moduleRefCount heap class m_refCount].
    rewrite insert_insert_eq, net_refs_cons. do 3 f_equal. lia.
Qed.

(** X3. Reference counting of an object.  As long as its count stays
    between 1 and 2^31 - 1, a sequence of [AddRef] and [Release] calls on
    a live object changes its count by the number of [AddRef]s minus the
    number of [Release]s and changes nothing else: not the module count,
    not another object.  With as many [Release]s as [AddRef]s the module
    is back in the state it started from. *)
Theorem refcount_follows_calls (ops : list bool) (p : positive) (o : Object)
    (rt : Runtime) :
  heap rt !! p = Some o ->
  stays_referenced (m_refCount o) ops = true ->
  run (ref_call p <$> ops) rt
  = {| g_moduleRefCount := g_moduleRefCount rt;
       heap := <[p := mkObject (class o) (m_refCount o + net_refs ops)]> (heap rt) |}
  /\ (net_refs ops = 0 -> run (ref_call p <$> ops) rt = rt).
Proof.
  intros Ho Hstay. split; [now apply ref_calls_run |].
  intros Hnet. rewrite (ref_calls_run ops p o rt Ho Hstay), Hnet, Z.add_0_r.
  destruct o as [c m]. cbn [class m_refCount].
  rewrite insert_id by exact Ho. destruct rt; reflexivity.
Qed.

Lemma refcount_follows_calls_witness :
  run (ref_call 1%positive <$> [true; false; false; true]) MoreExamples.one_factory
  = MoreExamples.one_factory.
Proof.
  apply (refcount_follows_calls [true; false; false; true] 1%positive
           (mkObject FactoryClass 2) MoreExamples.one_factory).
  - reflexivity.
  - reflexivity.
  - reflexivity.
Defined.

(** X4. The last [Release].  When the calls on a live object have kept its
    count between 1 and 2^31 - 1 and have brought it to 1, one more
    [Release] destroys the object and takes exactly one off the module
    count; every other object is as it was. *)
Theorem last_release_destroys (ops : list bool) (p : positive) (o : Object)
    (rt : Runtime) :
  heap rt !! p = Some o ->
  stays_referenced (m_refCount o) ops = true ->
  m_refCount o + net_refs ops = 1 ->
  run ((ref_call p <$> ops) ++ [CallRelease p]) rt
  = {| g_moduleRefCount := wrap_i32 (g_moduleRefCount rt - 1);
       heap := delete p (heap rt) |}
  /\ fst (Release p (run (ref_call p <$> ops) rt)) = 0.
Proof.
  intros Ho Hstay Hone.
  assert (Hrel : Release p (run (ref_call p <$> ops) rt)
                 = (0, {| g_moduleRefCount := wrap_i32 (g_moduleRefCount rt - 1);
                          heap := delete p (heap rt) |})).
  { rewrite (ref_calls_run ops p o rt Ho Hstay), Hone.
    rewrite (Release_last p (mkObject (class o) 1));
      [| cbn [heap]; apply lookup_insert_eq | reflexivity].
    cbn [g_moduleRefCount heap]. now rewrite delete_insert_eq. }
  split; [| now rewrite Hrel].
  unfold run at 1. rewrite fold_left_app. cbn [fold_left perform].
  change (fold_left (fun rt c => perform c rt) (ref_call p <$> ops) rt)
    with (run (ref_call p <$> ops) rt).
  now rewrite Hrel.
Qed.

Lemma last_release_destroys_witness :
  run ((ref_call 1%positive <$> [true; false; false]) ++ [CallRelease 1%positive])
      MoreExamples.one_factory
  = {| g_moduleRefCount := wrap_i32 (1 - 1);
       heap := delete 1%positive (heap MoreExamples.one_factory) |}
  /\ fst (Release 1%positive
            (run (ref_call 1%positive <$> [true; false; false])
                 MoreExamples.one_factory)) = 0.
Proof.
  apply (last_release_destroys [true; false; false] 1%positive
           (mkObject FactoryClass 2) MoreExamples.one_factory).
  - reflexivity.
  - reflexivity.
  - reflexivity.
Defined.

(** X5. Obtaining an object and letting go of it is a round trip: after a
    successful [DllGetClassObject] or [CreateInstance], the [Release] of
    the pointer handed out puts the module back into the state before the
    call, module count included. *)
Theorem hand_out_then_release_restores (rt : Runtime) :
  is_long (g_moduleRefCount rt) ->
  (forall riid, supports FactoryClass riid = true ->
     snd (Release (fresh (dom (heap rt)))
            (snd (DllGetClassObject false CLSID_QuickerSFVExplorerCommand riid true rt)))
     = rt)
  /\ (forall riid, supports CommandClass riid = true ->
        snd (Release (fresh (dom (heap rt)))
               (snd (CreateInstance false false riid true rt)))
        = rt).
Proof.
  intros Hlong.
  assert (Hback : forall c,
            snd (Release (fresh (dom (heap rt)))
                   {| g_moduleRefCount := wrap_i32 (g_moduleRefCount rt + 1);
                      heap := <[fresh (dom (heap rt)) := mkObject c 1]> (heap rt) |})
            = rt).
  { intros c.
    rewrite (Release_last _ (mkObject c 1));
      [| cbn [heap]; apply lookup_insert_eq | reflexivity].
    cbn [snd g_moduleRefCount heap].
    rewrite delete_insert_eq, delete_id by apply fresh_not_live.
    rewrite wrap_i32_up_down by exact Hlong. destruct rt; reflexivity. }
  split; intros riid Hs.
  - unfold DllGetClassObject. cbn [negb].
    rewrite bool_decide_eq_true_2 by reflexivity. cbn [negb].
    rewrite (hand_out_result FactoryClass riid rt Hlong), Hs.
    cbn [snd]. apply Hback.
  - unfold CreateInstance. cbn [negb].
    rewrite (hand_out_result CommandClass riid rt Hlong), Hs.
    cbn [snd]. apply Hback.
Qed.

Lemma hand_out_then_release_restores_witness :
  snd (Release (fresh (dom (heap MoreExamples.one_factory)))
         (snd (CreateInstance false false IID_IObjectWithSite true
                 MoreExamples.one_factory)))
  = MoreExamples.one_factory.
Proof.
  apply (hand_out_then_release_restores MoreExamples.one_factory).
  - unfold is_long. cbn. lia.
  - reflexivity.
Defined.

Lemma lock_delta_from (calls : list Call) :
  forall n : Z,
    fold_left (fun n c => n + lock_delta c) calls n = n + locks_held calls.
Proof.
  unfold locks_held. induction calls as [| c calls IH]; intros n; cbn [fold_left].
  - lia.
  - rewrite (IH (n + lock_delta c)), (IH (0 + lock_delta c)). lia.
Qed.

Lemma lock_calls_run (calls : list Call) :
  forall (c : Z) (h : gmap positive Object),
    forallb is_lock_call calls = true ->
    run calls {| g_moduleRefCount := wrap_i32 c; heap := h |}
    = {| g_moduleRefCount := wrap_i32 (c + locks_held calls); heap := h |}.
Proof.
  induction calls as [| call calls IH]; intros c h Hall.
  - cbn [run fold_left]. unfold locks_held. cbn [fold_left]. now rewrite Z.add_0_r.
  - cbn [forallb] in Hall. apply andb_true_iff in Hall as [Hcall Hall].
    destruct call as [| | | | | fLock]; try discriminate Hcall.
    cbn [run fold_left perform].
    change (fold_left (fun rt c => perform c rt) calls ?st) with (run calls st).
    unfold locks_held. cbn [fold_left]. rewrite lock_delta_from.
    destruct fLock; cbn [LockServer snd lock_delta];
      unfold ModuleAddRef, ModuleRelease; cbn [g_moduleRefCount heap].
    + rewrite wrap_i32_add, IH by exact Hall. do 2 f_equal. lia.
    + rewrite wrap_i32_sub, IH by exact Hall. do 2 f_equal. lia.
Qed.

(** X6. [LockServer] calls change the module count and nothing else: after
    any sequence of them the count has moved by the number of locks minus
    the number of unlocks, as a [LONG], and every object is as it was.
    With as many unlocks as locks, in any order and however many, the
    module is back in the state it started from. *)
Theorem lock_calls_balance (calls : list Call) (rt : Runtime) :
  is_long (g_moduleRefCount rt) ->
  forallb is_lock_call calls = true ->
  run calls rt
  = {| g_moduleRefCount := wrap_i32 (g_moduleRefCount rt + locks_held calls);
       heap := heap rt |}
  /\ (locks_held calls = 0 -> run calls rt = rt).
Proof.
  intros Hlong Hall.
  assert (Hrun : run calls rt
                 = {| g_moduleRefCount := wrap_i32 (g_moduleRefCount rt + locks_held calls);
                      heap := heap rt |}).
  { rewrite <- (lock_calls_run calls (g_moduleRefCount rt) (heap rt) Hall).
    rewrite wrap_i32_long by exact Hlong. destruct rt; reflexivity. }
  split; [exact Hrun |].
  intros Hnet. rewrite Hrun, Hnet, Z.add_0_r, wrap_i32_long by exact Hlong.
  destruct rt; reflexivity.
Qed.

Lemma lock_calls_balance_witness :
  run [CallLockServer false; CallLockServer true; CallLockServer true;
       CallLockServer false] MoreExamples.two_objects
  = MoreExamples.two_objects.
Proof.
  apply (lock_calls_balance
           [CallLockServer false; CallLockServer true; CallLockServer true;
            CallLockServer false] MoreExamples.two_objects).
  - unfold is_long. cbn. lia.
  - reflexivity.
  - reflexivity.
Defined.

(** *** Calls do not reach other objects *)

Lemma AddRef_other (p q : positive) (rt : Runtime) :
  p <> q -> heap (snd (AddRef p rt)) !! q = heap rt !! q.
Proof.
  intros Hpq. unfold AddRef. destruct (heap rt !! p); [| reflexivity].
  cbn [snd heap]. now rewrite lookup_insert_ne.
Qed.

Lemma Release_other (p q : positive) (rt : Runtime) :
  p <> q -> heap (snd (Release p rt)) !! q = heap rt !! q.
Proof.
  intros Hpq. unfold Release. destruct (heap rt !! p) as [o |]; [| reflexivity].
  destruct (wrap_i32 (m_refCount o - 1) =? 0); cbn [snd].
  - unfold destroy, ModuleRelease. cbn [heap].
    now rewrite lookup_delete_ne, lookup_insert_ne.
  - cbn [heap]. now rewrite lookup_insert_ne.
Qed.

Lemma QueryInterface_other (p q : positive) (riid : GUID) (ppv : bool) (rt : Runtime) :
  p <> q -> heap (snd (QueryInterface p riid ppv rt)) !! q = heap rt !! q.
Proof.
  intros Hpq. unfold QueryInterface.
  destruct ppv; cbn [negb]; [| reflexivity].
  destruct (heap rt !! p) as [o |]; [| reflexivity].
  destruct (supports (class o) riid); cbn [snd]; [| reflexivity].
  now apply AddRef_other.
Qed.

Lemma hand_out_other (c : Class) (riid : GUID) (ppv : bool) (q : positive)
    (rt : Runtime) :
  is_Some (heap rt !! q) ->
  heap (let '(p, rt) := construct c rt in
        let '(hr, out, rt) := QueryInterface p riid ppv rt in
        let '(_, rt) := Release p rt in
        rt) !! q
  = heap rt !! q.
Proof.
  intros Hq.
  assert (Hne : fresh (dom (heap rt)) <> q).
  { intros <-. rewrite fresh_not_live in Hq. destruct Hq as [? Hq]. discriminate. }
  unfold construct. revert Hne. generalize (fresh (dom (heap rt))). intros p Hne.
  cbv beta iota zeta.
  pose proof (QueryInterface_other p q riid ppv
                (ModuleAddRef {| g_moduleRefCount := g_moduleRefCount rt;
                                 heap := <[p := mkObject c 1]> (heap rt) |}) Hne) as Hqi.
  destruct (QueryInterface p riid ppv _) as [[hr out] rt2]. cbn [snd] in Hqi.
  pose proof (Release_other p q rt2 Hne) as Hrel.
  destruct (Release p rt2) as [n rt3]. cbn [snd] in Hrel.
  rewrite Hrel, Hqi. unfold ModuleAddRef. cbn [heap].
  now rewrite lookup_insert_ne.
Qed.

(** X7. No call reaches an object it is not made on: whatever the call,
    an object that is alive and is not the target of the call is still
    alive afterwards, with the same class and the same count.  Calls that
    create objects never disturb the ones that exist. *)
Theorem calls_leave_other_objects_alone (c : Call) (rt : Runtime) (q : positive)
    (o : Object) :
  heap rt !! q = Some o ->
  target c <> Some q ->
  heap (perform c rt) !! q = Some o.
Proof.
  intros Hq Ht. rewrite <- Hq.
  destruct c as [oom rclsid riid ppv | oom outer riid ppv | p riid ppv | p | p | fLock];
    cbn [perform target] in *.
  - unfold DllGetClassObject.
    destruct ppv; cbn [negb snd]; [| reflexivity].
    destruct (bool_decide (rclsid = CLSID_QuickerSFVExplorerCommand));
      cbn [negb snd]; [| reflexivity].
    destruct oom; cbn [snd]; [reflexivity |].
    pose proof (hand_out_other FactoryClass riid true q rt ltac:(eauto)) as H.
    destruct (construct FactoryClass rt) as [p rt1].
    destruct (QueryInterface p riid true rt1) as [[hr out] rt2].
    destruct (Release p rt2) as [n rt3]. exact H.
  - unfold CreateInstance.
    destruct ppv; cbn [negb snd]; [| reflexivity].
    destruct outer; cbn [snd]; [reflexivity |].
    destruct oom; cbn [snd]; [reflexivity |].
    pose proof (hand_out_other CommandClass riid true q rt ltac:(eauto)) as H.
    destruct (construct CommandClass rt) as [p rt1].
    destruct (QueryInterface p riid true rt1) as [[hr out] rt2].
    destruct (Release p rt2) as [n rt3]. exact H.
  - apply QueryInterface_other. congruence.
  - apply AddRef_other. congruence.
  - apply Release_other. congruence.
  - destruct fLock; reflexivity.
Qed.

Lemma calls_leave_other_objects_alone_witness :
  heap (perform (CallRelease 2%positive) MoreExamples.two_objects) !! 1%positive
  = Some (mkObject FactoryClass 1).
Proof.
  apply (calls_leave_other_objects_alone (CallRelease 2%positive)
           MoreExamples.two_objects 1%positive (mkObject FactoryClass 1)).
  - reflexivity.
  - compute_done.
Defined.

End RefCountFacts.

(** ** The site of a command *)

Section SiteFacts.
Import Com Site.

Variable site_qi : positive -> GUID -> HRESULT * option positive.

Lemma refs_held_snoc (s : positive) (log : list SiteCall) (c : SiteCall) :
  refs_held s (log ++ [c]) = refs_held s log + ref_delta s c.
Proof.
  unfold refs_held. induction log as [| x log IH]; cbn [app foldr]; [lia |].
  rewrite IH. lia.
Qed.

Lemma prefix_snoc (s : positive) (log : list SiteCall) (c : SiteCall) :
  (forall l1 l2, log = l1 ++ l2 -> 0 <= refs_held s l1) ->
  0 <= refs_held s (log ++ [c]) ->
  forall l1 l2, log ++ [c] = l1 ++ l2 -> 0 <= refs_held s l1.
Proof.
  intros Hlog Hall l1 l2 Heq.
  destruct l2 as [| x l2 _] using rev_ind.
  - rewrite app_nil_r in Heq. now subst l1.
  - rewrite app_assoc in Heq. apply app_inj_tail in Heq as [Heq _].
    exact (Hlog l1 l2 Heq).
Qed.

Lemma holds_constructed : holds_its_site constructed.
Proof.
  intros s. split; [reflexivity |].
  intros l1 l2 Heq. cbn in Heq. symmetry in Heq.
  apply app_eq_nil in Heq as [-> _]. reflexivity.
Qed.

Lemma holds_SetSite (p : option positive) (st : CommandSite) :
  holds_its_site st -> holds_its_site (snd (SetSite p st)).
Proof.
  intros Hst.
  assert (Hreleased : holds_its_site
            match m_site st with
            | Some s0 => {| m_site := None; site_calls := site_calls st ++ [SiteRelease s0] |}
            | None => st
            end /\
          m_site match m_site st with
                 | Some s0 => {| m_site := None;
                                 site_calls := site_calls st ++ [SiteRelease s0] |}
                 | None => st
                 end = None).
  { destruct (m_site st) as [s0 |] eqn:Hm; [| split; [exact Hst | exact Hm]].
    split; [| reflexivity]. intros s. destruct (Hst s) as [Hheld Hprefix].
    assert (Hnow : refs_held s (site_calls st ++ [SiteRelease s0]) = 0).
    { rewrite refs_held_snoc, Hheld, Hm. cbn [ref_delta].
      destruct (decide (s0 = s)) as [-> | Hne].
      - rewrite decide_True by reflexivity. lia.
      - rewrite decide_False by congruence. lia. }
    cbn [m_site site_calls]. split.
    - rewrite Hnow. now rewrite decide_False by discriminate.
    - apply prefix_snoc; [exact Hprefix | lia]. }
  unfold SetSite. cbn [snd].
  destruct Hreleased as [Hrel Hnone]. revert Hrel Hnone.
  generalize (match m_site st with
              | Some s0 => {| m_site := None;
                              site_calls := site_calls st ++ [SiteRelease s0] |}
              | None => st
              end).
  intros st1 Hrel Hnone. destruct p as [s' |]; [| exact Hrel].
  intros s. destruct (Hrel s) as [Hheld Hprefix]. rewrite Hnone in Hheld.
  rewrite decide_False in Hheld by discriminate.
  assert (Hnow : refs_held s (site_calls st1 ++ [SiteAddRef s'])
                 = if decide (Some s' = Some s) then 1 else 0).
  { rewrite refs_held_snoc, Hheld. cbn [ref_delta].
    destruct (decide (s' = s)) as [-> | Hne].
    - now rewrite decide_True by reflexivity.
    - now rewrite decide_False by congruence. }
  cbn [m_site site_calls]. split; [exact Hnow |].
  apply prefix_snoc; [exact Hprefix |]. rewrite Hnow.
  destruct (decide (Some s' = Some s)); lia.
Qed.

Lemma holds_GetSite (riid : GUID) (ppv : bool) (st : CommandSite) :
  holds_its_site st -> holds_its_site (snd (GetSite site_qi riid ppv st)).
Proof.
  intros Hst. unfold GetSite. destruct ppv; cbn [negb snd]; [| exact Hst].
  destruct (m_site st) as [s0 |] eqn:Hm; cbn [snd]; [| exact Hst].
  destruct (site_qi s0 riid) as [hr out]. cbn [snd].
  intros s. destruct (Hst s) as [Hheld Hprefix].
  assert (Hnow : refs_held s (site_calls st ++ [SiteQueryInterface s0 riid])
                 = refs_held s (site_calls st)).
  { rewrite refs_held_snoc. cbn [ref_delta]. lia. }
  cbn [m_site site_calls]. split.
  - rewrite Hnow, Hheld, Hm. reflexivity.
  - apply prefix_snoc; [exact Hprefix |]. rewrite Hnow, Hheld.
    destruct (decide (m_site st = Some s)); lia.
Qed.

Lemma holds_run (ops : list SiteOp) :
  forall st, holds_its_site st -> holds_its_site (run_site site_qi ops st).
Proof.
  induction ops as [| op ops IH]; intros st Hst; [exact Hst |].
  cbn [run_site fold_left]. apply IH.
  destruct op as [p | riid ppv]; cbn [perform_site].
  - now apply holds_SetSite.
  - now apply holds_GetSite.
Qed.

(** X8. References on sites are balanced.  After any sequence of
    [SetSite] and [GetSite] calls on a new command, the command has taken
    exactly one more reference than it has released on the site it holds
    and as many as it has released on every other site; the destructor
    releases the one that is left, so that over the life of the command
    every [AddRef] on a site is matched by one [Release]; and at no point
    has the command released a site more often than it had referenced
    it. *)
Theorem site_references_balanced (ops : list SiteOp) (s : positive) :
  refs_held s (site_calls (run_site site_qi ops constructed))
  = (if decide (m_site (run_site site_qi ops constructed) = Some s) then 1 else 0)
  /\ refs_held s (destructor (run_site site_qi ops constructed)) = 0
  /\ (forall l1 l2,
        destructor (run_site site_qi ops constructed) = l1 ++ l2 ->
        0 <= refs_held s l1).
Proof.
  pose proof (holds_run ops constructed holds_constructed s) as [Hheld Hprefix].
  revert Hheld Hprefix. generalize (run_site site_qi ops constructed).
  intros st Hheld Hprefix. split; [exact Hheld |].
  unfold destructor. destruct (m_site st) as [s0 |] eqn:Hm.
  - assert (Hnow : refs_held s (site_calls st ++ [SiteRelease s0]) = 0).
    { rewrite refs_held_snoc, Hheld. cbn [ref_delta].
      destruct (decide (s0 = s)) as [-> | Hne].
      - rewrite decide_True by reflexivity. lia.
      - rewrite decide_False by congruence. lia. }
    split; [exact Hnow |].
    apply prefix_snoc; [exact Hprefix | lia].
  - rewrite decide_False in Hheld by discriminate.
    split; [exact Hheld | exact Hprefix].
Qed.

(** X9. [GetSite] answers for the site set last.  After any calls, once
    [SetSite] has been called with a site, [GetSite] with a non-NULL out
    pointer returns what that site's [QueryInterface] returns and stores
    what it stores; once [SetSite] has been called with NULL, [GetSite]
    fails with [E_FAIL] and stores nothing through the out pointer.  With
    a NULL out pointer [GetSite] fails with [E_POINTER] and calls no site.
    [GetSite] never changes the site held. *)
Theorem GetSite_after_SetSite (ops : list SiteOp) (p : option positive)
    (riid : GUID) :
  m_site (snd (SetSite p (run_site site_qi ops constructed))) = p
  /\ fst (GetSite site_qi riid true (snd (SetSite p (run_site site_qi ops constructed))))
     = match p with
       | Some s => (fst (site_qi s riid), Some (snd (site_qi s riid)))
       | None => (E_FAIL, None)
       end
  /\ GetSite site_qi riid false (snd (SetSite p (run_site site_qi ops constructed)))
     = (E_POINTER, None, snd (SetSite p (run_site site_qi ops constructed)))
  /\ (forall ppv,
        m_site (snd (GetSite site_qi riid ppv
                       (snd (SetSite p (run_site site_qi ops constructed)))))
        = p).
Proof.
  generalize (run_site site_qi ops constructed). intros st.
  assert (Hset : m_site (snd (SetSite p st)) = p).
  { unfold SetSite. cbn [snd].
    destruct (m_site st) as [s0 |] eqn:Hm; destruct p as [s |]; cbn [m_site];
      try reflexivity. exact Hm. }
  split; [exact Hset |]. revert Hset. generalize (snd (SetSite p st)).
  intros st' Hset. unfold GetSite. cbn [negb]. rewrite Hset.
  split; [| split; [reflexivity |]].
  - destruct p as [s |]; [| reflexivity].
    destruct (site_qi s riid) as [hr out]. reflexivity.
  - intros ppv. destruct ppv; cbn [negb snd]; [| exact Hset].
    destruct p as [s |]; [| exact Hset].
    destruct (site_qi s riid) as [hr out]. reflexivity.
Qed.

End SiteFacts.

(** ** The descriptive methods *)

Section CommandInfoFacts.
Import Com Shell CommandInfo.

Lemma wcscpy_s_fits (text : string) : wcscpy_s (wcslen text + 1) text = Some text.
Proof.
  unfold wcscpy_s. destruct (Nat.ltb_spec (wcslen text) (wcslen text + 1)); [reflexivity | lia].
Qed.

Lemma hand_over_text_result (text : string) (out oom : bool) :
  hand_over_text text out oom
  = Some (if negb out then (E_POINTER, NotStored)
          else if oom then (E_OUTOFMEMORY, StoredNull)
          else (S_OK, StoredText text)).
Proof.
  unfold hand_over_text. destruct out; cbn [negb]; [| reflexivity].
  destruct oom; [reflexivity |]. now rewrite wcscpy_s_fits.
Qed.

(** X10. Out pointers of the descriptive methods.  Each of [GetTitle],
    [GetIcon], [GetToolTip], [GetCanonicalName], [GetState], [GetFlags]
    and [EnumSubCommands] returns (the copy in [GetTitle] and [GetToolTip]
    always fits its buffer), whatever the selection passed.  With a NULL
    out pointer it returns [E_POINTER] and stores nothing.  With a
    non-NULL out pointer it always stores something, and it stores NULL
    exactly when it fails; on success [GetTitle] and [GetToolTip] store
    the whole text. *)
Theorem out_pointer_discipline (m : Method) (psiItemArray : option IShellItemArray)
    (out oom : bool) :
  exists hr stored,
    call m psiItemArray out oom = Some (hr, stored)
    /\ call m None out oom = Some (hr, stored)
    /\ (out = false -> hr = E_POINTER /\ stored = NotStored)
    /\ (out = true ->
        stored <> NotStored
        /\ (FAILED hr = true <-> stored = StoredNull)
        /\ (hr = S_OK \/ hr = E_NOTIMPL \/ hr = E_OUTOFMEMORY))
    /\ (forall text, hand_over_text text true false = Some (S_OK, StoredText text)).
Proof.
  assert (Htext : forall text,
            hand_over_text text true false = Some (S_OK, StoredText text)).
  { intros text. now rewrite hand_over_text_result. }
  destruct m as [| | | | slow | |]; cbn [call];
    unfold GetTitle, GetToolTip, GetIcon, GetCanonicalName, GetState, GetFlags,
      EnumSubCommands;
    rewrite ?hand_over_text_result;
    destruct out, oom; cbn [negb];
    eexists; eexists;
    (split; [reflexivity |]); (split; [reflexivity |]);
    (split; [intros H; try discriminate H; auto |]);
    (split; [intros H; try discriminate H | exact Htext]);
    (split; [discriminate |]);
    (split; [split; intros H'; try reflexivity; try discriminate H' | auto]).
Qed.

End CommandInfoFacts.

(** ** The usage example *)

Section UsageFacts.
Import Word Usage.

Lemma push_back_all {A B} (f : A -> B) (l : list A) :
  forall acc : list B,
    fold_left (fun result c => result ++ [f c]) l acc = acc ++ (f <$> l).
Proof.
  induction l as [| c l IH]; intros acc; cbn [fold_left fmap list_fmap].
  - now rewrite app_nil_r.
  - rewrite IH, <- app_assoc. reflexivity.
Qed.

Lemma string_to_utf16_map (char_signed : bool) (str : list byte) :
  string_to_utf16 char_signed str = (char_to_uint16 char_signed <$> str) ++ [0].
Proof. unfold string_to_utf16. now rewrite push_back_all. Qed.

Lemma char_to_uint16_cases (char_signed : bool) (c : byte) :
  (byte_to_Z c < 128 /\ char_to_uint16 char_signed c = byte_to_Z c)
  \/ (128 <= byte_to_Z c
      /\ char_to_uint16 char_signed c
         = if char_signed then 0xFF00 + byte_to_Z c else byte_to_Z c).
Proof.
  pose proof (byte_to_Z_range c) as Hc. unfold char_to_uint16.
  destruct (Z.leb_spec 128 (byte_to_Z c)) as [Hhi | Hlo].
  - right. split; [exact Hhi |]. destruct char_signed; cbn [andb]; [| reflexivity].
    change (2 ^ 16) with 65536.
    replace (byte_to_Z c - 256) with (byte_to_Z c + 65280 + (-1) * 65536) by lia.
    rewrite Z.mod_add by lia. rewrite Z.mod_small; lia.
  - left. split; [exact Hlo |]. now rewrite andb_false_r.
Qed.

Lemma char_to_uint16_range (char_signed : bool) (c : byte) :
  0 <= char_to_uint16 char_signed c < 2 ^ 16.
Proof.
  pose proof (byte_to_Z_range c) as Hc.
  destruct (char_to_uint16_cases char_signed c) as [[_ ->] | [_ ->]];
    [| destruct char_signed]; lia.
Qed.

Lemma char_to_uint16_low_byte (char_signed : bool) (c : byte) :
  char_to_uint16 char_signed c mod 256 = byte_to_Z c.
Proof.
  pose proof (byte_to_Z_range c) as Hc.
  destruct (char_to_uint16_cases char_signed c) as [[_ ->] | [_ ->]];
    [| destruct char_signed].
  - apply Z.mod_small. lia.
  - replace (0xFF00 + byte_to_Z c) with (byte_to_Z c + 255 * 256) by lia.
    rewrite Z.mod_add by lia. apply Z.mod_small. lia.
  - apply Z.mod_small. lia.
Qed.

Lemma char_to_uint16_zero (char_signed : bool) (c : byte) :
  (char_to_uint16 char_signed c =? 0) = is_nul c.
Proof.
  pose proof (byte_to_Z_range c) as Hc. unfold is_nul.
  destruct (char_to_uint16_cases char_signed c) as [[_ ->] | [Hhi ->]];
    [reflexivity |].
  destruct char_signed; [| reflexivity].
  destruct (Z.eqb_spec (0xFF00 + byte_to_Z c) 0); [lia |].
  destruct (Z.eqb_spec (byte_to_Z c) 0); [lia | reflexivity].
Qed.

(** X11. The shape of [string_to_utf16].  The result has one unit per
    character and a terminating zero; every unit is a 16-bit value whose
    low byte is the character it stands for, so the characters can be
    read back; and the null-terminated string a callee reads from the
    buffer is the conversion of the characters before the first NUL of
    the input, of all of them when there is none. *)
Theorem string_to_utf16_shape (char_signed : bool) (str : list byte) :
  length (string_to_utf16 char_signed str) = S (length str)
  /\ last (string_to_utf16 char_signed str) = Some 0
  /\ Forall (fun u => 0 <= u < 2 ^ 16) (string_to_utf16 char_signed str)
  /\ (fun u => u mod 256) <$> take (length str) (string_to_utf16 char_signed str)
     = byte_to_Z <$> str
  /\ c_str (fun u => u =? 0) (string_to_utf16 char_signed str)
     = char_to_uint16 char_signed <$> c_str is_nul str.
Proof.
  rewrite string_to_utf16_map. split; [| split; [| split; [| split]]].
  - rewrite length_app, length_fmap. cbn. lia.
  - apply last_snoc.
  - apply Forall_app. split.
    + apply Forall_fmap, Forall_forall. intros c _. apply char_to_uint16_range.
    + repeat constructor; lia.
  - rewrite take_app_length' by now rewrite length_fmap.
    rewrite <- list_fmap_compose. apply list_fmap_ext.
    intros i c _. apply char_to_uint16_low_byte.
  - induction str as [| c str IH]; [reflexivity |].
    cbn [fmap list_fmap app c_str]. rewrite char_to_uint16_zero.
    destruct (is_nul c); [reflexivity |].
    cbn [fmap list_fmap]. f_equal. exact IH.
Qed.

(** X12. [string_to_utf16] and the signedness of [char].  For input of
    7-bit characters only, and for no other, the result is the same
    whether [char] is signed or not; then it is the UTF-16 text of the
    input.  Where [char] is unsigned every unit is the byte it stands
    for; where it is signed a byte of 128 or more becomes a unit of
    [FF80] or more, not the code point of the byte. *)
Theorem string_to_utf16_ascii (str : list byte) :
  (Forall (fun c => byte_to_Z c < 128) str
   <-> string_to_utf16 true str = string_to_utf16 false str)
  /\ string_to_utf16 false str = (byte_to_Z <$> str) ++ [0]
  /\ Forall (fun u => 0 <= u < 128 \/ 0xFF80 <= u < 2 ^ 16) (string_to_utf16 true str).
Proof.
  rewrite !string_to_utf16_map. split; [| split].
  - split.
    + intros Hascii. f_equal. apply list_fmap_ext. intros i c Hc.
      apply list_elem_of_lookup_2 in Hc.
      rewrite Forall_forall in Hascii. specialize (Hascii c Hc).
      destruct (char_to_uint16_cases true c) as [[_ ->] | [Hhi _]]; [| lia].
      destruct (char_to_uint16_cases false c) as [[_ ->] | [Hhi _]]; [reflexivity | lia].
    + intros Heq. apply app_inv_tail in Heq.
      induction str as [| c str IH]; [constructor |].
      cbn [fmap list_fmap] in Heq. injection Heq as Hc Hrest.
      constructor; [| now apply IH].
      pose proof (byte_to_Z_range c) as Hr.
      destruct (char_to_uint16_cases true c) as [[Hlo _] | [Hhi Ht]]; [exact Hlo |].
      destruct (char_to_uint16_cases false c) as [[Hlo _] | [_ Hf]]; [exact Hlo |].
      rewrite Ht, Hf in Hc. lia.
  - reflexivity.
  - apply Forall_app. split; [| repeat constructor; lia].
    apply Forall_fmap, Forall_forall. intros c _. cbn.
    pose proof (byte_to_Z_range c) as Hr.
    destruct (char_to_uint16_cases true c) as [[Hlo ->] | [Hhi ->]]; lia.
Qed.

End UsageFacts.

(** ** [Invoke] on a list of files *)

Section SelectionFacts.
Import Word Com Stream Shell Core ExplorerCommand.

Lemma resolved_selection (paths : list string) (i : Z) :
  resolved_path (selection paths) i = paths !! Z.to_nat i.
Proof.
  unfold resolved_path, selection. cbn [GetItemAt].
  destruct (paths !! Z.to_nat i); reflexivity.
Qed.

Lemma resolved_all (l : list string) :
  forall pre : list string,
    omap (resolved_path (selection (pre ++ l)))
         (Z.of_nat <$> seq (length pre) (length l))
    = l.
Proof.
  induction l as [| x l IH]; intros pre; [reflexivity |].
  cbn [length seq fmap list_fmap omap list_omap].
  rewrite resolved_selection, Nat2Z.id, list_lookup_middle by reflexivity.
  f_equal. specialize (IH (pre ++ [x])).
  rewrite <- app_assoc in IH. cbn [app] in IH.
  rewrite length_app in IH. cbn [length] in IH.
  replace (length pre + 1)%nat with (S (length pre)) in IH by lia.
  exact IH.
Qed.

Lemma concat_lines_app (l1 l2 : list string) :
  concat_lines (l1 ++ l2) = concat_lines l1 +:+ concat_lines l2.
Proof.
  unfold concat_lines. induction l1 as [| x l1 IH]; [reflexivity |].
  cbn [app foldr]. now rewrite IH, str_app_assoc.
Qed.

(** X13. Files are reported one by one, in order.  For a non-empty
    selection of files the message is the header followed by the line of
    the first file, the line of the second and so on: the line of a file
    is the same wherever it stands in the selection, a file selected
    twice is reported twice, and the message for two selections put
    together is the message for the first followed by the lines of the
    second. *)
Theorem selection_reported_in_order (env : Env) (ps qs : list string) :
  ps ++ qs <> [] ->
  Invoke env (Some (selection (ps ++ qs)))
  = (S_OK, Some (header_text env
                 +:+ concat_lines (result_line env <$> ps)
                 +:+ concat_lines (result_line env <$> qs))).
Proof.
  intros Hne.
  rewrite (Invoke_spec env (selection (ps ++ qs)) S_OK (Z.of_nat (length (ps ++ qs))));
    [| reflexivity | reflexivity |].
  - unfold result_lines, indices. rewrite Nat2Z.id.
    pose proof (resolved_all (ps ++ qs) []) as Hall.
    cbn [app length] in Hall. rewrite Hall.
    now rewrite fmap_app, concat_lines_app.
  - destruct (ps ++ qs); [contradiction | cbn [length]; lia].
Qed.

Lemma selection_reported_in_order_witness :
  Invoke Examples.env
    (Some (selection (["C:\data\check.txt"] ++ ["C:\data\locked.bin"; "C:\data\check.txt"])))
  = (S_OK, Some (header_text Examples.env
                 +:+ concat_lines (result_line Examples.env <$> ["C:\data\check.txt"])
                 +:+ concat_lines (result_line Examples.env
                                     <$> ["C:\data\locked.bin"; "C:\data\check.txt"]))).
Proof.
  apply (selection_reported_in_order Examples.env ["C:\data\check.txt"]
           ["C:\data\locked.bin"; "C:\data\check.txt"]).
  compute_done.
Defined.

(** X14. The return code of [Invoke].  [Invoke] returns [S_OK] or
    [E_INVALIDARG] and nothing else.  It returns [S_OK], and shows the
    message box, exactly when it is given a selection whose [GetCount]
    succeeds with a count other than zero; what happens to the single
    items and files, failures included, never changes the return code.
    Otherwise it returns [E_INVALIDARG] and shows nothing. *)
Theorem Invoke_return_code (env : Env) (psiItemArray : option IShellItemArray) :
  (fst (Invoke env psiItemArray) = S_OK \/ fst (Invoke env psiItemArray) = E_INVALIDARG)
  /\ (fst (Invoke env psiItemArray) = S_OK <-> is_Some (snd (Invoke env psiItemArray)))
  /\ (fst (Invoke env psiItemArray) = S_OK
      <-> exists arr, psiItemArray = Some arr
                      /\ FAILED (fst (GetCount arr)) = false
                      /\ snd (GetCount arr) <> 0).
Proof.
  assert (Hcodes : E_INVALIDARG <> S_OK) by (vm_compute; discriminate).
  destruct psiItemArray as [arr |].
  - unfold Invoke. destruct (GetCount arr) as [hr count] eqn:Hc.
    destruct (FAILED hr) eqn:Hhr; cbn [orb].
    + split; [right; reflexivity |]. cbn [fst snd].
      split; split; try (intros H; contradiction).
      * intros [x H]. discriminate H.
      * intros (arr' & Harr & Hf & _). injection Harr as <-.
        rewrite Hc in Hf. cbn [fst] in Hf. congruence.
    + destruct (Z.eqb_spec count 0) as [Hz | Hnz]; cbn [fst snd].
      * split; [right; reflexivity |].
        split; split; try (intros H; contradiction).
        -- intros [x H]. discriminate H.
        -- intros (arr' & Harr & _ & Hn). injection Harr as <-.
           rewrite Hc in Hn. cbn [snd] in Hn. contradiction.
      * split; [left; reflexivity |].
        split; split; try reflexivity; intros _.
        -- eauto.
        -- exists arr. rewrite Hc. cbn [fst snd]. auto.
  - cbn [Invoke fst snd].
    split; [right; reflexivity |].
    split; split; try (intros H; contradiction).
    + intros [x H]. discriminate H.
    + intros (arr' & Harr & _). discriminate Harr.
Qed.

End SelectionFacts.
